(** * FiniteElemNL: the nonlinear finite-element solver of FiniteElemNL.cpp

    A shallow embedding of [src/FiniteElemNL.cpp].  Scalars are IEEE binary64
    numbers ([double] in the source, Rocq's primitive [float] here), indices are
    Armadillo's [uword] (an unsigned 64-bit integer, a [Z] with its wrap-around
    written out), vectors are lists and dense matrices are lists of rows.

    Armadillo checks bounds and dimensions and throws; a loop may run for
    ever.  Both are results of the embedding: see [outcome]. *)

From Stdlib Require Import ZArith Lia Floats.PrimFloat Strings.String.
From stdpp Require Import base list.

Local Open Scope Z_scope.
#[local] Set Warnings "-inexact-float".

(** ** Results of a computation *)

(** [Ret v]: the call returned [v].  [Throw]: Armadillo raised (an index out
    of bounds, incompatible dimensions).  [OutOfFuel]: the loop was still
    running when the iteration budget of the embedding ran out. *)
Inductive outcome (A : Type) : Type :=
  | Ret (a : A)
  | Throw
  | OutOfFuel.
Arguments Ret {A} a.
Arguments Throw {A}.
Arguments OutOfFuel {A}.

Definition bind {A B : Type} (m : outcome A) (k : A -> outcome B) : outcome B :=
  match m with
  | Ret a => k a
  | Throw => Throw
  | OutOfFuel => OutOfFuel
  end.

Declare Scope outcome_scope.
Delimit Scope outcome_scope with outcome.
Notation "x <- m ;; k" := (bind m (fun x => k))
  (at level 100, m at next level, right associativity) : outcome_scope.
Local Open Scope outcome_scope.

Definition of_option {A : Type} (o : option A) : outcome A :=
  match o with
  | Some a => Ret a
  | None => Throw
  end.

Definition of_outcome {A : Type} (m : outcome A) : option A :=
  match m with
  | Ret a => Some a
  | _ => None
  end.

(** [mapO f l]: apply [f] to the elements of [l] from the left, stopping at
    the first one that does not return. *)
Fixpoint mapO {A B : Type} (f : A -> outcome B) (l : list A) : outcome (list B) :=
  match l with
  | [] => Ret []
  | a :: l' => b <- f a ;; bs <- mapO f l' ;; Ret (b :: bs)
  end.

(** [foldO body l s]: run [body] at the indices of [l] in order. *)
Fixpoint foldO {I S : Type} (body : I -> S -> outcome S) (l : list I) (s : S)
  : outcome S :=
  match l with
  | [] => Ret s
  | i :: l' => s' <- body i s ;; foldO body l' s'
  end.

(** ** Machine types *)

Abbreviation double := float (only parsing).

(** Armadillo's [uword] (64-bit build). *)
Abbreviation uword := Z (only parsing).
Definition uword_bits : Z := 64.
Definition uword_modulus : Z := 2 ^ uword_bits.
Definition wrap (z : Z) : uword := z mod uword_modulus.
Definition is_uword (z : Z) : Prop := 0 <= z < uword_modulus.

Abbreviation vec := (list double) (only parsing).
Abbreviation uvec := (list uword) (only parsing).
(** A dense matrix, as the list of its rows. *)
Abbreviation mat := (list (list double)) (only parsing).
Abbreviation umat := (list (list uword)) (only parsing).

(** ** The operations of Armadillo that the solver uses *)

Module Arma.

Definition n_rows {A : Type} (v : list A) : uword := Z.of_nat (length v).

(** [zeros<vec>(N)] *)
Definition zeros (N : uword) : vec := replicate (Z.to_nat N) 0%float.

(** [v(i)], bounds checked. *)
Definition at_ {A : Type} (v : list A) (i : uword) : outcome A :=
  of_option (v !! Z.to_nat i).

(** [v(i) = x], bounds checked. *)
Definition set_at {A : Type} (v : list A) (i : uword) (x : A) : outcome (list A) :=
  if i <? n_rows v then Ret (<[Z.to_nat i := x]> v) else Throw.

Fixpoint find_eq_from (k : uword) (s : uvec) (i : uword) : uvec :=
  match s with
  | [] => []
  | x :: s' =>
      if x =? i then k :: find_eq_from (k + 1) s' i
      else find_eq_from (k + 1) s' i
  end.

(** [find(s == i)]: the positions of [s] that hold [i], increasing. *)
Definition find_eq (s : uvec) (i : uword) : uvec := find_eq_from 0 s i.

Definition is_empty {A : Type} (v : list A) : bool :=
  match v with
  | [] => true
  | _ :: _ => false
  end.

(** [v.elem(q)] and [m.rows(q)] for an index vector [q]: the entries (rows)
    at the positions of [q], in the order of [q]. *)
Definition elem {A : Type} (v : list A) (q : uvec) : outcome (list A) :=
  mapO (at_ v) q.

(** [v.rows(span(a,b))] and [r.cols(span(a,b))]: Armadillo refuses
    [a > b] and [b >= n]. *)
Definition span {A : Type} (v : list A) (a b : uword) : outcome (list A) :=
  if (b <? a) || (n_rows v <=? b) then Throw
  else Ret (take (Z.to_nat (b - a + 1)) (drop (Z.to_nat a) v)).

(** [sum(v)], accumulated from the left. *)
Definition sum (v : vec) : double := fold_left PrimFloat.add v 0%float.

(** Entry by entry operations on two vectors of one length. *)
Fixpoint zip_with_checked (f : double -> double -> double) (a b : vec)
  : outcome vec :=
  match a, b with
  | [], [] => Ret []
  | x :: a', y :: b' => r <- zip_with_checked f a' b' ;; Ret (f x y :: r)
  | _, _ => Throw
  end.

Definition add (a b : vec) : outcome vec := zip_with_checked PrimFloat.add a b.
Definition sub (a b : vec) : outcome vec := zip_with_checked PrimFloat.sub a b.
(** [a % b] *)
Definition schur (a b : vec) : outcome vec := zip_with_checked PrimFloat.mul a b.

(** [r * c] for a row [r] and a column [c]: the 1x1 product. *)
Definition dot (r c : vec) : outcome double :=
  p <- schur r c ;; Ret (sum p).

(** [A * u] *)
Definition mat_vec (A : mat) (u : vec) : outcome vec :=
  mapO (fun r => dot r u) A.

(** [norm(v)] *)
Definition norm (v : vec) : double :=
  PrimFloat.sqrt (sum (map (fun x => PrimFloat.mul x x) v)).

(** [M.diag()] *)
Definition diag (M : mat) : vec :=
  omap (fun '(k, r) => r !! k) (imap (fun k r => (k, r)) M).

(** [m.col(j)] *)
Definition col {A : Type} (m : list (list A)) (j : uword) : outcome (list A) :=
  mapO (fun r => at_ r j) m.

Definition join_vert {A : Type} (a b : list A) : list A := a ++ b.

(** [v.rows(q) = x] for an index vector [q]: the entries of [x] written at
    the positions of [q], in the order of [q]. *)
Fixpoint set_elem (v : vec) (q : uvec) (x : vec) : outcome vec :=
  match q, x with
  | [], [] => Ret v
  | i :: q', y :: x' => v' <- set_at v i y ;; set_elem v' q' x'
  | _, _ => Throw
  end.

End Arma.

(** ** Loops over [uword] counters *)

(** [for (uword i = i0; i < hi; i++) body]. *)
Fixpoint for_up {S : Type} (fuel : nat) (hi : uword)
    (body : uword -> S -> outcome S) (i : uword) (s : S) : outcome S :=
  if i <? hi then
    match fuel with
    | O => OutOfFuel
    | Datatypes.S fuel' =>
        s' <- body i s ;; for_up fuel' hi body (wrap (i + 1)) s'
    end
  else Ret s.

(** [for (uword i = i0; i >= 0; i--) body]: the counter is unsigned. *)
Fixpoint for_down {S : Type} (fuel : nat)
    (body : uword -> S -> outcome S) (i : uword) (s : S) : outcome S :=
  if 0 <=? i then
    match fuel with
    | O => OutOfFuel
    | Datatypes.S fuel' =>
        s' <- body i s ;; for_down fuel' body (wrap (i - 1)) s'
    end
  else Ret s.

(** ** accumArray (lines 125-148) *)

Definition accumArray_body (subs : uvec) (ar : vec) (i : uword) (S : vec)
  : outcome vec :=
  let q1 := Arma.find_eq subs i in
  if negb (Arma.is_empty q1) then
    spot <- Arma.elem ar q1 ;;
    let thesum := Arma.sum spot in
    Arma.set_at S i thesum
  else Arma.set_at S i 0%float.

Definition accumArray (subs : uvec) (ar : vec) (N : uword) : outcome vec :=
  let S := Arma.zeros N in
  for_up (Z.to_nat N) N (accumArray_body subs ar) 0 S.

(** ** Collaborators that are not part of this file of the repository *)

(** The function classes of FunZeros.h, FunOnes.h, FunSC.h, FunSCNL.h,
    FunSCbD.h and FunBoltz.h, reached through base-class pointers
    ([pde], [bdfun], [pdenl]).  Only their interface is visible from
    FiniteElemNL.cpp: [evalF] and [evalDF] map a matrix with one point per
    row to a vector with one value per row; a [vec] is a one-column matrix, so
    on a vector they act entry by entry. *)
Record Fun : Type := {
  evalF_row : list double -> double;
  evalDF_row : list double -> double
}.

Definition evalF (f : Fun) (m : mat) : vec := map (evalF_row f) m.
Definition evalDF (f : Fun) (m : mat) : vec := map (evalDF_row f) m.

(** A [vec] seen as the one-column matrix it is. *)
Definition as_mat (v : vec) : mat := map (fun x => [x]) v.

(** The scalar problem class [FunSCNL1D] (declared in FunSCNL.h): built from
    the three parameters of a node, it exposes a value and a derivative. *)
Record Fun1D : Type := {
  evalF1 : double -> double;
  evalDF1 : double -> double
}.

(** The mesh fields the solver reads from [MeshMG]. *)
Record MeshMG : Type := {
  node : mat;
  elem : umat;
  area : vec;
  stiffness : mat;
  mass : mat;
  freeNode : uvec;
  bdNode : uvec
}.

(** The names of the function classes the file includes. *)
Inductive FunName : Type :=
  | FunZeros | FunOnes | FunSC | FunSCNL | FunSCbD | FunBoltz.

(** The object under construction: the members the methods read. *)
Record FiniteElemNL : Type := {
  pde : FunName;
  bdfun : FunName;
  pdenl : FunName;
  mesh : MeshMG;
  u : vec
}.

(** Matrix operations of calcRHS. *)
Module ArmaMat.

(** [m1 + m2] *)
Fixpoint add (m1 m2 : mat) : outcome mat :=
  match m1, m2 with
  | [], [] => Ret []
  | r1 :: m1', r2 :: m2' =>
      r <- Arma.add r1 r2 ;; m <- add m1' m2' ;; Ret (r :: m)
  | _, _ => Throw
  end.

(** [m / s] *)
Definition div_scalar (m : mat) (s : double) : mat :=
  map (map (fun x => PrimFloat.div x s)) m.

Definition n_cols {A : Type} (m : list (list A)) : nat :=
  match m with
  | [] => O
  | r :: _ => length r
  end.

(** [diagmat(v)] *)
Definition diagmat (v : vec) : mat :=
  imap (fun i x => <[i := x]> (replicate (length v) 0%float)) v.

(** [B.submat(q, q)] *)
Definition submat (B : mat) (q : uvec) : outcome mat :=
  rows <- Arma.elem B q ;; mapO (fun r => Arma.elem r q) rows.

(** [vectorise(m)]: the columns of [m], one after the other. *)
Definition vectorise {A : Type} (m : list (list A)) : list A :=
  concat (map (fun j => omap (fun r => r !! j) m) (seq 0 (n_cols m))).

End ArmaMat.

Section Solver.

(** What the missing headers define. *)
Variable fun_of : FunName -> Fun.
Variable FunSCNL1D : list double -> Fun1D.
(** [MeshMG msh(meshprops); msh.uniformrefine();] *)
Variable MeshMG_refined : list double -> MeshMG.
(** Armadillo's [solve(B, r)]. *)
Variable solve : mat -> vec -> outcome vec.

(** ** calcRHS (lines 94-112) *)

Definition calcRHS (self : FiniteElemNL) : outcome vec :=
  let area := area (mesh self) in
  let node := node (mesh self) in
  let elem := elem (mesh self) in
  let pde := fun_of (pde self) in
  e0 <- Arma.col elem 0 ;;
  e1 <- Arma.col elem 1 ;;
  e2 <- Arma.col elem 2 ;;
  n0 <- Arma.elem node e0 ;;
  n1 <- Arma.elem node e1 ;;
  n2 <- Arma.elem node e2 ;;
  s1 <- ArmaMat.add n1 n2 ;;
  let mid1 := ArmaMat.div_scalar s1 2%float in
  s2 <- ArmaMat.add n2 n0 ;;
  let mid2 := ArmaMat.div_scalar s2 2%float in
  s3 <- ArmaMat.add n0 n1 ;;
  let mid3 := ArmaMat.div_scalar s3 2%float in
  f23 <- Arma.add (evalF pde mid2) (evalF pde mid3) ;;
  a1 <- Arma.schur area f23 ;;
  let bt1 := map (fun x => PrimFloat.div x 6%float) a1 in
  f31 <- Arma.add (evalF pde mid3) (evalF pde mid1) ;;
  a2 <- Arma.schur area f31 ;;
  let bt2 := map (fun x => PrimFloat.div x 6%float) a2 in
  f12 <- Arma.add (evalF pde mid1) (evalF pde mid2) ;;
  a3 <- Arma.schur area f12 ;;
  let bt3 := map (fun x => PrimFloat.div x 6%float) a3 in
  let bt12 := Arma.join_vert bt1 bt2 in
  let bts := Arma.join_vert bt12 bt3 in
  let elemv := ArmaMat.vectorise elem in
  accumArray elemv bts (Arma.n_rows node).

(** ** NWTsolve1D (lines 222-237) *)

Fixpoint NWTsolve1D_loop (fuel : nat) (f : Fun1D) (tol : double)
    (maxitr : uword) (x fp df err : double) (n : uword) : outcome double :=
  if PrimFloat.ltb tol err && (n <? maxitr) then
    match fuel with
    | O => OutOfFuel
    | S fuel' =>
        let x := PrimFloat.sub x (PrimFloat.div fp df) in
        let df := evalDF1 f x in
        let fp := evalF1 f x in
        let err := PrimFloat.abs fp in
        NWTsolve1D_loop fuel' f tol maxitr x fp df err (wrap (n + 1))
    end
  else Ret x.

Definition NWTsolve1D (f : Fun1D) (x0 tol : double) (maxitr : uword)
  : outcome double :=
  let fp := evalF1 f x0 in
  let df := evalDF1 f x0 in
  let n := 0 in
  let err := PrimFloat.abs fp in
  let x := x0 in
  NWTsolve1D_loop (Z.to_nat maxitr) f tol maxitr x fp df err n.

(** ** GSsolve (lines 179-199) *)

(** [currA(0,0)] of lines 186-187. *)
Definition GSsolve_currA (Ar u : vec) (Nu i : uword) : outcome double :=
  c1 <- Arma.span Ar 0 (wrap (i - 1)) ;;
  u1 <- Arma.span u 0 (wrap (i - 1)) ;;
  p1 <- Arma.dot c1 u1 ;;
  c2 <- Arma.span Ar (wrap (i + 1)) (wrap (Nu - 1)) ;;
  u2 <- Arma.span u (wrap (i + 1)) (wrap (Nu - 1)) ;;
  p2 <- Arma.dot c2 u2 ;;
  Ret (PrimFloat.add p1 p2).

(** Lines 189-195, shared by the two sweeps word for word. *)
Definition node_update (b u M : vec) (A : mat) (i : uword) (currA : double)
  : outcome vec :=
  bi <- Arma.at_ b i ;;
  let ci := PrimFloat.add currA bi in
  Ai <- Arma.at_ A i ;;
  Aii <- Arma.at_ Ai i ;;
  Mi <- Arma.at_ M i ;;
  let pars := [ci; Aii; Mi] in
  let nfun := FunSCNL1D pars in
  ui <- Arma.at_ u i ;;
  x <- NWTsolve1D nfun ui 1e-6%float 10 ;;
  Arma.set_at u i x.

Definition GSsolve_body (b M : vec) (A : mat) (freeNode : uvec) (Nu : uword)
    (i : uword) (u : vec) : outcome vec :=
  let isfree := Arma.find_eq freeNode i in
  if negb (Arma.is_empty isfree) then
    Ar <- Arma.at_ A i ;;
    currA <- GSsolve_currA Ar u Nu i ;;
    node_update b u M A i currA
  else Ret u.

Definition GSsolve (b u : vec) (maxitr : uword) (M : vec) (A : mat)
    (tol : double) (freeNode : uvec) : outcome vec :=
  let Nu := Arma.n_rows u in
  for_up (Z.to_nat (wrap (Nu - 1))) (wrap (Nu - 1))
    (GSsolve_body b M A freeNode Nu) 1 u.

(** ** GSsolveb (lines 201-220) *)

(** [currA(0,0)] of lines 208-209. *)
Definition GSsolveb_currA (Ar u : vec) (Nu i : uword) : outcome double :=
  c1 <- Arma.span Ar 0 (wrap (i - 1)) ;;
  u1 <- Arma.span u 0 (wrap (i - 1)) ;;
  p1 <- Arma.dot c1 u1 ;;
  c2 <- Arma.span Ar i (wrap (Nu - 1)) ;;
  u2 <- Arma.span u i (wrap (Nu - 1)) ;;
  p2 <- Arma.dot c2 u2 ;;
  Ret (PrimFloat.add p1 p2).

Definition GSsolveb_body (b M : vec) (A : mat) (freeNode : uvec) (Nu : uword)
    (i : uword) (u : vec) : outcome vec :=
  let isfree := Arma.find_eq freeNode i in
  if negb (Arma.is_empty isfree) then
    Ar <- Arma.at_ A i ;;
    currA <- GSsolveb_currA Ar u Nu i ;;
    node_update b u M A i currA
  else Ret u.

(** The loop of line 204 has no bound of its own: the embedding runs it for
    [fuel] iterations. *)
Definition GSsolveb (fuel : nat) (b u : vec) (maxitr : uword) (M : vec)
    (A : mat) (tol : double) (freeNode : uvec) : outcome vec :=
  let Nu := Arma.n_rows u in
  for_down fuel (GSsolveb_body b M A freeNode Nu) (wrap (Nu - 2)) u.

(** ** The residual [(A*u)+(M%fu)-b] and its norm on the free nodes
    (lines 65-67, 74-76, 157-158, 169-171) *)

Definition residual (A : mat) (u M fu b : vec) : outcome vec :=
  Au <- Arma.mat_vec A u ;;
  Mfu <- Arma.schur M fu ;;
  s <- Arma.add Au Mfu ;;
  Arma.sub s b.

Definition residual_norm (A : mat) (u M fu b : vec) (freeNode : uvec)
  : outcome (vec * double) :=
  res <- residual A u M fu b ;;
  r <- Arma.elem res freeNode ;;
  Ret (r, Arma.norm r).

(** ** NWTsolve (lines 151-177) *)

Definition NWTsolve_step (self : FiniteElemNL) (b M : vec) (A : mat)
    (freeNode : uvec) (u r : vec) : outcome (vec * vec * double) :=
  let pdenl := fun_of (pdenl self) in
  Df <- Arma.schur M (evalDF pdenl (as_mat u)) ;;
  let Dfm := ArmaMat.diagmat Df in
  B <- ArmaMat.add A Dfm ;;
  Bff <- ArmaMat.submat B freeNode ;;
  e <- solve Bff r ;;
  uf <- Arma.elem u freeNode ;;
  d <- Arma.sub uf e ;;
  u <- Arma.set_elem u freeNode d ;;
  let fu := evalF pdenl (as_mat u) in
  rn <- residual_norm A u M fu b freeNode ;;
  Ret (u, fst rn, snd rn).

Fixpoint NWTsolve_loop (fuel : nat) (self : FiniteElemNL) (b M : vec)
    (A : mat) (freeNode : uvec) (maxitr : uword) (tol : double)
    (u r : vec) (err : double) (k : uword) : outcome vec :=
  if (k <? maxitr) && PrimFloat.ltb tol err then
    match fuel with
    | O => OutOfFuel
    | S fuel' =>
        st <- NWTsolve_step self b M A freeNode u r ;;
        let '(u, r, err) := st in
        NWTsolve_loop fuel' self b M A freeNode maxitr tol u r err
          (wrap (k + 1))
    end
  else Ret u.

Definition NWTsolve (self : FiniteElemNL) (b u : vec) (maxitr : uword)
    (M : vec) (A : mat) (tol : double) (freeNode : uvec) : outcome vec :=
  let fu := evalF (fun_of (pdenl self)) (as_mat u) in
  rn <- residual_norm A u M fu b freeNode ;;
  let r := fst rn in
  let k := 0 in
  let tol := PrimFloat.mul tol (Arma.norm r) in
  let err := PrimFloat.mul 2%float tol in
  NWTsolve_loop (Z.to_nat maxitr) self b M A freeNode maxitr tol u r err k.

(** ** The constructor (lines 39-87) *)

(** Lines 44-46: the function classes, whatever [fun] names. *)
Definition choose_functions (fun_ : string)
  : outcome (FunName * FunName * FunName) :=
  Ret (FunZeros, FunBoltz, FunSCNL).

(** Lines 74-76: the stopping test's new [err], from the [fu] of line 64. *)
Definition Driver_recheck (A : mat) (Mv fu b : vec) (freeNode : uvec)
    (u : vec) : outcome double :=
  rn <- residual_norm A u Mv fu b freeNode ;;
  Ret (snd rn).

(** One pass of the loop body, lines 72-79. *)
Definition Driver_iteration (fuelb : nat) (b Mv : vec) (A : mat)
    (freeNode : uvec) (fu u : vec) : outcome (vec * double) :=
  u <- GSsolve b u 10 Mv A 1e-6%float freeNode ;;
  u <- GSsolveb fuelb b u 10 Mv A 1e-6%float freeNode ;;
  err <- Driver_recheck A Mv fu b freeNode u ;;
  Ret (u, err).

(** [while(k<10 && err>tol)] *)
Fixpoint Driver_loop (fuel fuelb : nat) (b Mv : vec) (A : mat)
    (freeNode : uvec) (fu : vec) (tol : double) (u : vec) (err : double)
    (k : uword) : outcome vec :=
  if (k <? 10) && PrimFloat.ltb tol err then
    match fuel with
    | O => OutOfFuel
    | S fuel' =>
        st <- Driver_iteration fuelb b Mv A freeNode fu u ;;
        Driver_loop fuel' fuelb b Mv A freeNode fu tol (fst st) (snd st)
          (wrap (k + 1))
    end
  else Ret u.

(** Lines 47-56: the solution vector before the solve, zero with the
    boundary values written in. *)
Definition initial_u (bdfun : Fun) (mesh : MeshMG) : outcome vec :=
  let N := Arma.n_rows (node mesh) in
  let u := Arma.zeros N in
  let node := node mesh in
  bn <- Arma.elem node (bdNode mesh) ;;
  Arma.set_elem u (bdNode mesh) (evalF bdfun bn).

(** [fuelb] bounds each run of the backward sweep. *)
Definition FiniteElemNL_new (fuelb : nat) (meshprops : list double)
    (fun_ : string) : outcome FiniteElemNL :=
  let msh := MeshMG_refined meshprops in
  fs <- choose_functions fun_ ;;
  let '(pde, bdfun, pdenl) := fs in
  let mesh := msh in
  let self := {| pde := pde; bdfun := bdfun; pdenl := pdenl;
                 mesh := mesh; u := Arma.zeros (Arma.n_rows (node mesh)) |} in
  b <- calcRHS self ;;
  u <- initial_u (fun_of bdfun) mesh ;;
  let tol := 1e-6%float in
  let A := stiffness mesh in
  let M := mass mesh in
  let Mv := Arma.diag M in
  let fu := evalF (fun_of pdenl) (as_mat u) in
  let freeNode := freeNode mesh in
  rn <- residual_norm A u Mv fu b freeNode ;;
  let r := fst rn in
  let k := 0 in
  let tol := PrimFloat.mul tol (Arma.norm r) in
  let err := PrimFloat.mul 2%float tol in
  u <- Driver_loop 10 fuelb b Mv A freeNode fu tol u err k ;;
  Ret {| pde := pde; bdfun := bdfun; pdenl := pdenl; mesh := mesh; u := u |}.

End Solver.

(** ** Vocabulary of the statements *)

(** The loop of GSsolveb after [n] passes: its counter and its vector. *)
Fixpoint for_down_state {S : Type} (n : nat)
    (body : uword -> S -> outcome S) (i : uword) (s : S) : outcome (uword * S) :=
  match n with
  | O => Ret (i, s)
  | Datatypes.S n' =>
      if 0 <=? i then
        s' <- body i s ;; for_down_state n' body (wrap (i - 1)) s'
      else Ret (i, s)
  end.

Definition GSsolveb_state (FunSCNL1D : list double -> Fun1D) (n : nat)
    (b u M : vec) (A : mat) (freeNode : uvec) : outcome (uword * vec) :=
  let Nu := Arma.n_rows u in
  for_down_state n (GSsolveb_body FunSCNL1D b M A freeNode Nu) (wrap (Nu - 2)) u.

(** [hi], [hi - 1], ..., [hi - n + 1]. *)
Definition descZ (hi : Z) (n : nat) : list Z :=
  (fun k => hi - Z.of_nat k) <$> seq 0 n.

(** The sum of the values whose key is [i], in the order of the arrays. *)
Definition sum_by_key (keys : uvec) (values : vec) (i : uword) : double :=
  Arma.sum (snd <$> filter (fun kv : uword * double => kv.1 = i) (zip keys values)).

(** The free and the boundary indices split [0, N). *)
Definition partitions (N : Z) (free bd : uvec) : Prop :=
  (forall j, j ∈ free -> 0 <= j < N) /\
  (forall j, j ∈ bd -> 0 <= j < N) /\
  (forall j, 0 <= j < N -> j ∈ free \/ j ∈ bd) /\
  (forall j, j ∈ free -> j ∈ bd -> False).

(** The sizes a system on [N] nodes has. *)
Definition well_dimensioned (N : Z) (b u M : vec) (A : mat) : Prop :=
  Arma.n_rows u = N /\ Arma.n_rows b = N /\ Arma.n_rows M = N /\
  Arma.n_rows A = N /\ Forall (fun r => Arma.n_rows r = N) A.

(** A mesh of [T] triangles on [N] points of one dimension [d]. *)
Definition well_formed_mesh (m : MeshMG) : Prop :=
  Arma.n_rows (node m) < uword_modulus /\
  length (area m) = length (elem m) /\
  (exists d, Forall (fun p => length p = d) (node m)) /\
  Forall (fun t => exists v0 v1 v2, t = [v0; v1; v2] /\
            Forall (fun v => 0 <= v < Arma.n_rows (node m)) t) (elem m).

(** The midpoint of two points. *)
Definition midpoint (p q : list double) : list double :=
  zip_with (fun a b => PrimFloat.div (PrimFloat.add a b) 2%float) p q.

(** The point a vertex index names. *)
Definition point (m : MeshMG) (v : uword) : list double :=
  default [] (node m !! Z.to_nat v).

Definition vertex (k : nat) (t : list uword) : uword := default 0 (t !! k).

(** What vertex [k] of triangle [t] of area [a] receives: [a] times the sum
    of the source at the midpoints of the two edges that meet at the vertex,
    over 6. *)
Definition vertex_load (F : Fun) (m : MeshMG) (k : nat) (t : list uword)
    (a : double) : double :=
  let p0 := point m (vertex 0 t) in
  let p1 := point m (vertex 1 t) in
  let p2 := point m (vertex 2 t) in
  let mid1 := midpoint p1 p2 in
  let mid2 := midpoint p2 p0 in
  let mid3 := midpoint p0 p1 in
  let '(ma, mb) :=
    match k with
    | O => (mid2, mid3)
    | 1%nat => (mid3, mid1)
    | _ => (mid1, mid2)
    end in
  PrimFloat.div
    (PrimFloat.mul a (PrimFloat.add (evalF_row F ma) (evalF_row F mb))) 6%float.

(** The loads of vertex [k] over all triangles, and their keys. *)
Definition vertex_loads (F : Fun) (m : MeshMG) (k : nat) : vec :=
  zip_with (vertex_load F m k) (elem m) (area m).
Definition vertex_keys (m : MeshMG) (k : nat) : uvec :=
  vertex k <$> elem m.



(** One Newton step, [x - f(x)/f'(x)], and the iterate after [k] steps. *)
Definition newton_step (f : Fun1D) (x : double) : double :=
  PrimFloat.sub x (PrimFloat.div (evalF1 f x) (evalDF1 f x)).

Definition newton_iterate (f : Fun1D) (k : nat) (x0 : double) : double :=
  Nat.iter k (newton_step f) x0.

(** [|f(x)| > tol], the test that keeps the scalar search going. *)
Definition above_tol (f : Fun1D) (tol x : double) : bool :=
  PrimFloat.ltb tol (PrimFloat.abs (evalF1 f x)).

(** The computation came to an end: it returned or it raised. *)
Definition halts {A : Type} (m : outcome A) : Prop := m <> OutOfFuel.

(** The key/value pairs whose key lies in [0, N). *)
Definition in_range_pairs (keys : uvec) (values : vec) (N : uword)
  : list (uword * double) :=
  filter (fun kv : uword * double => 0 <= kv.1 < N) (zip keys values).

(** ** Instances for the examples *)

Definition first_coord (r : list double) : double := default 0%float (head r).

(** A scalar problem in the shape of the residual identity
    [pars0 + pars1 * x + pars2 * x^3], in the place of [FunSCNL1D]. *)
Definition cubic1D (pars : list double) : Fun1D :=
  let c := default 0%float (pars !! 0%nat) in
  let a := default 0%float (pars !! 1%nat) in
  let m := default 0%float (pars !! 2%nat) in
  {| evalF1 := fun x => (c + a * x + m * (x * x * x))%float;
     evalDF1 := fun x => (a + 3 * m * (x * x))%float |}.

Definition const_fun (c : double) : Fun :=
  {| evalF_row := fun _ => c; evalDF_row := fun _ => 0%float |}.

Definition cube_fun : Fun :=
  {| evalF_row := fun r => let x := first_coord r in (x * x * x)%float;
     evalDF_row := fun r => let x := first_coord r in (3 * (x * x))%float |}.

Definition coord_sum_fun : Fun :=
  {| evalF_row := fun r => Arma.sum r; evalDF_row := fun _ => 1%float |}.

Definition ex_fun_of (name : FunName) : Fun :=
  match name with
  | FunZeros => const_fun 0%float
  | FunOnes => const_fun 1%float
  | FunSCNL => cube_fun
  | _ => coord_sum_fun
  end.

Definition eye3 : mat :=
  [[1; 0; 0]; [0; 1; 0]; [0; 0; 1]]%float.

(** One triangle on the points (0,0), (2,0), (0,2). *)
Definition ex_mesh : MeshMG :=
  {| node := [[0; 0]; [2; 0]; [0; 2]]%float;
     elem := [[0; 1; 2]];
     area := [2%float];
     stiffness := eye3;
     mass := eye3;
     freeNode := [1];
     bdNode := [0; 2] |}.

Definition ex_self : FiniteElemNL :=
  {| pde := FunBoltz; bdfun := FunBoltz; pdenl := FunSCNL;
     mesh := ex_mesh; u := [0; 0; 0]%float |}.

(** The square on (0,0), (2,0), (0,2), (2,2) cut in two triangles that
    share the nodes 1 and 2. *)
Definition ex_square : MeshMG :=
  {| node := [[0; 0]; [2; 0]; [0; 2]; [2; 2]]%float;
     elem := [[0; 1; 2]; [1; 3; 2]];
     area := [2; 2]%float;
     stiffness := [[1; -0.5; -0.5; 0]; [-0.5; 1; 0; -0.5];
                   [-0.5; 0; 1; -0.5]; [0; -0.5; -0.5; 1]]%float;
     mass := [[1; 0; 0; 0]; [0; 1; 0; 0]; [0; 0; 1; 0]; [0; 0; 0; 1]]%float;
     freeNode := [];
     bdNode := [0; 1; 2; 3] |}.

Definition ex_square_self : FiniteElemNL :=
  {| pde := FunBoltz; bdfun := FunBoltz; pdenl := FunSCNL;
     mesh := ex_square; u := [0; 0; 0; 0]%float |}.

(** One triangle on (1,0), (3,0), (1,2) with its stiffness matrix; node 1 is
    free, and the boundary values leave a residual there. *)
Definition ex_loaded_mesh : MeshMG :=
  {| node := [[1; 0]; [3; 0]; [1; 2]]%float;
     elem := [[0; 1; 2]];
     area := [2%float];
     stiffness := [[1; -0.5; -0.5]; [-0.5; 0.5; 0]; [-0.5; 0; 0.5]]%float;
     mass := eye3;
     freeNode := [1];
     bdNode := [0; 2] |}.

(** The same triangle, naming a node 3 that the mesh does not have. *)
Definition ex_bad_self : FiniteElemNL :=
  {| pde := FunOnes; bdfun := FunBoltz; pdenl := FunSCNL;
     mesh := {| node := [[0; 0]; [2; 0]; [0; 2]]%float; elem := [[0; 1; 3]];
                area := [2%float]; stiffness := eye3; mass := eye3;
                freeNode := [1]; bdNode := [0; 2] |};
     u := [] |}.

(** ** Facts about the loops *)

Lemma wrap_small z : is_uword z -> wrap z = z.
Proof. unfold is_uword, wrap. intros H. apply Z.mod_small. exact H. Qed.

Lemma wrap_range z : is_uword (wrap z).
Proof.
  unfold is_uword, wrap. apply Z.mod_pos_bound.
  unfold uword_modulus, uword_bits. lia.
Qed.

Lemma bind_Ret_inv {A B : Type} (m : outcome A) (k : A -> outcome B) (b : B) :
  bind m k = Ret b -> exists a, m = Ret a /\ k a = Ret b.
Proof. destruct m as [a| |]; simpl; intros H; [eauto | discriminate..]. Qed.

(** A counting loop with enough fuel runs its body at [i], [i+1], ...,
    [hi-1] and returns. *)
Lemma for_up_foldO {S : Type} (body : uword -> S -> outcome S) (hi : uword) :
  hi < uword_modulus ->
  forall (fuel : nat) (i : uword) (s : S),
    0 <= i -> hi - i <= Z.of_nat fuel ->
    for_up fuel hi body i s = foldO body (seqZ i (hi - i)) s.
Proof.
  intros Hhi fuel. induction fuel as [|fuel IH]; intros i s Hi Hfuel.
  - simpl. destruct (Z.ltb_spec i hi) as [Hlt|Hge]; [lia|].
    rewrite seqZ_nil by lia. reflexivity.
  - simpl. destruct (Z.ltb_spec i hi) as [Hlt|Hge].
    + rewrite seqZ_cons by lia. simpl.
      rewrite wrap_small by (unfold is_uword; lia).
      destruct (body i s) as [s'| |]; simpl; try reflexivity.
      rewrite IH by lia. f_equal. f_equal; lia.
    + rewrite seqZ_nil by lia. reflexivity.
Qed.

(** The test [i >= 0] on an unsigned counter never fails: the loop does not
    return, whatever its fuel. *)
Lemma for_down_no_return {S : Type} (body : uword -> S -> outcome S) :
  forall (fuel : nat) (i : uword) (s : S),
    0 <= i ->
    for_down fuel body i s = Throw \/ for_down fuel body i s = OutOfFuel.
Proof.
  induction fuel as [|fuel IH]; intros i s Hi; simpl.
  - destruct (Z.leb_spec 0 i); [auto | lia].
  - destruct (Z.leb_spec 0 i); [|lia].
    destruct (body i s) as [s'| |]; simpl; auto.
    apply IH. apply wrap_range.
Qed.


(** ** Facts about the operations of Armadillo *)

Lemma find_eq_from_empty (s : uvec) (i k : uword) :
  Arma.is_empty (Arma.find_eq_from k s i) = true <-> i ∉ s.
Proof.
  revert k. induction s as [|x s IH]; intros k; simpl.
  - split; [intros _; apply not_elem_of_nil | reflexivity].
  - destruct (Z.eqb_spec x i) as [->|Hne]; simpl.
    + split; [discriminate | intros H; exfalso; apply H; left].
    + rewrite IH. rewrite not_elem_of_cons. split; [auto | tauto].
Qed.

Lemma find_eq_empty (s : uvec) (i : uword) :
  Arma.is_empty (Arma.find_eq s i) = true <-> i ∉ s.
Proof. apply find_eq_from_empty. Qed.

Lemma find_eq_nonempty (s : uvec) (i : uword) :
  negb (Arma.is_empty (Arma.find_eq s i)) = true <-> i ∈ s.
Proof.
  rewrite negb_true_iff, <- not_true_iff_false, find_eq_empty.
  destruct (decide (i ∈ s)); tauto.
Qed.

Lemma at_Ret {A : Type} (v : list A) (i : uword) :
  0 <= i < Arma.n_rows v -> exists x, Arma.at_ v i = Ret x /\ v !! Z.to_nat i = Some x.
Proof.
  unfold Arma.n_rows, Arma.at_. intros H.
  destruct (lookup_lt_is_Some_2 v (Z.to_nat i)) as [x Hx]; [lia|].
  exists x. rewrite Hx. auto.
Qed.

Lemma at_Ret_inv {A : Type} (v : list A) (i : uword) (x : A) :
  Arma.at_ v i = Ret x -> v !! Z.to_nat i = Some x.
Proof.
  unfold Arma.at_. destruct (v !! Z.to_nat i); simpl; congruence.
Qed.

Lemma set_at_Ret_inv {A : Type} (v v' : list A) (i : uword) (x : A) :
  Arma.set_at v i x = Ret v' -> i < Arma.n_rows v /\ v' = <[Z.to_nat i := x]> v.
Proof.
  unfold Arma.set_at. destruct (Z.ltb_spec i (Arma.n_rows v)); [|discriminate].
  intros [= <-]. auto.
Qed.

Lemma set_at_Ret {A : Type} (v : list A) (i : uword) (x : A) :
  i < Arma.n_rows v -> Arma.set_at v i x = Ret (<[Z.to_nat i := x]> v).
Proof.
  unfold Arma.set_at. destruct (Z.ltb_spec i (Arma.n_rows v)); [reflexivity|lia].
Qed.

Lemma span_Ret {A : Type} (v : list A) (a b : uword) :
  a <= b < Arma.n_rows v ->
  Arma.span v a b = Ret (take (Z.to_nat (b - a + 1)) (drop (Z.to_nat a) v)).
Proof.
  intros H. unfold Arma.span.
  destruct (Z.ltb_spec b a); [lia|].
  destruct (Z.leb_spec (Arma.n_rows v) b); [lia|]. reflexivity.
Qed.

Lemma zip_with_checked_Ret (f : double -> double -> double) (a b : vec) :
  length a = length b -> Arma.zip_with_checked f a b = Ret (zip_with f a b).
Proof.
  revert b. induction a as [|x a IH]; intros [|y b] H; simpl in *; try discriminate.
  - reflexivity.
  - rewrite IH by lia. reflexivity.
Qed.

Lemma dot_Ret (r c : vec) :
  length r = length c ->
  Arma.dot r c = Ret (Arma.sum (zip_with PrimFloat.mul r c)).
Proof.
  intros H. unfold Arma.dot, Arma.schur. rewrite zip_with_checked_Ret by exact H.
  reflexivity.
Qed.

(** ** Facts about the scalar Newton search *)

Lemma NWTsolve1D_loop_returns (f : Fun1D) (tol : double) (maxitr : uword) :
  maxitr < uword_modulus ->
  forall (fuel : nat) (x fp df err : double) (n : uword),
    0 <= n -> maxitr - n <= Z.of_nat fuel ->
    exists y, NWTsolve1D_loop fuel f tol maxitr x fp df err n = Ret y.
Proof.
  intros Hm fuel. induction fuel as [|fuel IH]; intros x fp df err n Hn Hfuel; simpl.
  - destruct (Z.ltb_spec n maxitr); [lia|]. rewrite andb_false_r. eauto.
  - destruct (PrimFloat.ltb tol err && (n <? maxitr)) eqn:E; [|eauto].
    apply andb_true_iff in E as [_ E]. apply Z.ltb_lt in E.
    rewrite wrap_small by (unfold is_uword; lia).
    apply IH; lia.
Qed.

Lemma NWTsolve1D_returns (f : Fun1D) (x0 tol : double) (maxitr : uword) :
  is_uword maxitr -> exists y, NWTsolve1D f x0 tol maxitr = Ret y.
Proof.
  intros [H0 H1]. unfold NWTsolve1D.
  apply NWTsolve1D_loop_returns; lia.
Qed.

(** ** Facts about the two sweeps *)

Section Sweeps.

Variable FunSCNL1D : list double -> Fun1D.

Lemma node_update_Ret_inv (b u M : vec) (A : mat) (i : uword) (currA : double)
    (u' : vec) :
  node_update FunSCNL1D b u M A i currA = Ret u' ->
  exists bi Ai Aii Mi ui x,
    b !! Z.to_nat i = Some bi /\ A !! Z.to_nat i = Some Ai /\
    Ai !! Z.to_nat i = Some Aii /\ M !! Z.to_nat i = Some Mi /\
    u !! Z.to_nat i = Some ui /\
    NWTsolve1D (FunSCNL1D [PrimFloat.add currA bi; Aii; Mi]) ui 1e-6%float 10
      = Ret x /\
    u' = <[Z.to_nat i := x]> u.
Proof.
  unfold node_update. intros H.
  apply bind_Ret_inv in H as (bi & Hb & H).
  apply bind_Ret_inv in H as (Ai & HA & H).
  apply bind_Ret_inv in H as (Aii & HAi & H).
  apply bind_Ret_inv in H as (Mi & HM & H).
  apply bind_Ret_inv in H as (ui & Hu & H).
  apply bind_Ret_inv in H as (x & Hx & H).
  apply set_at_Ret_inv in H as [_ ->].
  exists bi, Ai, Aii, Mi, ui, x.
  repeat split; auto using at_Ret_inv.
Qed.

Lemma node_update_Ret (N : Z) (b u M : vec) (A : mat) (i : uword) (currA : double) :
  well_dimensioned N b u M A -> 0 <= i < N ->
  exists x, node_update FunSCNL1D b u M A i currA = Ret (<[Z.to_nat i := x]> u).
Proof.
  intros (Hu & Hb & HM & HA & HAr) Hi. unfold node_update.
  destruct (at_Ret b i) as (bi & -> & _); [lia|]. simpl.
  destruct (at_Ret A i) as (Ai & -> & HAi); [lia|]. simpl.
  assert (Arma.n_rows Ai = N) as HAiN.
  { rewrite Forall_forall in HAr. apply HAr. eapply list_elem_of_lookup_2, HAi. }
  destruct (at_Ret Ai i) as (Aii & -> & _); [lia|]. simpl.
  destruct (at_Ret M i) as (Mi & -> & _); [lia|]. simpl.
  destruct (at_Ret u i) as (ui & -> & _); [lia|]. simpl.
  destruct (NWTsolve1D_returns (FunSCNL1D [PrimFloat.add currA bi; Aii; Mi]) ui
              1e-6%float 10) as [x ->].
  { unfold is_uword, uword_modulus, uword_bits. lia. }
  simpl. exists x. apply set_at_Ret. lia.
Qed.

Lemma GSsolve_currA_Ret (N : Z) (Ar u : vec) (i : uword) :
  N < uword_modulus -> Arma.n_rows Ar = N -> Arma.n_rows u = N ->
  1 <= i <= N - 2 ->
  GSsolve_currA Ar u N i =
    Ret (PrimFloat.add
           (Arma.sum (zip_with PrimFloat.mul (take (Z.to_nat i) Ar)
                                             (take (Z.to_nat i) u)))
           (Arma.sum (zip_with PrimFloat.mul (drop (Z.to_nat (i + 1)) Ar)
                                             (drop (Z.to_nat (i + 1)) u)))).
Proof.
  intros HN HAr Hu Hi. unfold GSsolve_currA.
  rewrite !(wrap_small (i - 1)), !(wrap_small (i + 1)), !(wrap_small (N - 1))
    by (unfold is_uword; lia).
  rewrite !span_Ret by lia. simpl.
  replace (Z.to_nat (i - 1 - 0 + 1)) with (Z.to_nat i) by lia.
  change (Z.to_nat 0) with 0%nat. rewrite !drop_0.
  unfold Arma.n_rows in *.
  rewrite dot_Ret by (rewrite !length_take; lia). simpl.
  rewrite !take_ge by (rewrite length_drop; lia).
  rewrite dot_Ret by (rewrite !length_drop; lia). reflexivity.
Qed.

Lemma GSsolveb_currA_Ret (N : Z) (Ar u : vec) (i : uword) :
  N < uword_modulus -> Arma.n_rows Ar = N -> Arma.n_rows u = N ->
  1 <= i <= N - 1 ->
  GSsolveb_currA Ar u N i =
    Ret (PrimFloat.add
           (Arma.sum (zip_with PrimFloat.mul (take (Z.to_nat i) Ar)
                                             (take (Z.to_nat i) u)))
           (Arma.sum (zip_with PrimFloat.mul (drop (Z.to_nat i) Ar)
                                             (drop (Z.to_nat i) u)))).
Proof.
  intros HN HAr Hu Hi. unfold GSsolveb_currA.
  rewrite !(wrap_small (i - 1)), !(wrap_small (N - 1))
    by (unfold is_uword; lia).
  rewrite !span_Ret by lia. simpl.
  replace (Z.to_nat (i - 1 - 0 + 1)) with (Z.to_nat i) by lia.
  change (Z.to_nat 0) with 0%nat. rewrite !drop_0.
  unfold Arma.n_rows in *.
  rewrite dot_Ret by (rewrite !length_take; lia). simpl.
  rewrite !take_ge by (rewrite length_drop; lia).
  rewrite dot_Ret by (rewrite !length_drop; lia). reflexivity.
Qed.

(** A pass of either loop changes at most the entry of its index, and only
    when the index is free. *)
Lemma GSsolve_body_Ret_inv (b M : vec) (A : mat) (freeNode : uvec) (Nu i : uword)
    (u u' : vec) :
  GSsolve_body FunSCNL1D b M A freeNode Nu i u = Ret u' ->
  ((i ∉ freeNode) /\ u' = u) \/
  (i ∈ freeNode /\ exists x, u' = <[Z.to_nat i := x]> u).
Proof.
  unfold GSsolve_body.
  destruct (negb (Arma.is_empty (Arma.find_eq freeNode i))) eqn:E.
  - apply find_eq_nonempty in E. intros H. right. split; [exact E|].
    apply bind_Ret_inv in H as (Ar & _ & H).
    apply bind_Ret_inv in H as (currA & _ & H).
    apply node_update_Ret_inv in H as (? & ? & ? & ? & ? & x & H).
    exists x. apply H.
  - intros [= <-]. left. split; [|reflexivity].
    apply find_eq_empty. apply negb_false_iff in E. exact E.
Qed.

Lemma GSsolveb_body_Ret_inv (b M : vec) (A : mat) (freeNode : uvec) (Nu i : uword)
    (u u' : vec) :
  GSsolveb_body FunSCNL1D b M A freeNode Nu i u = Ret u' ->
  ((i ∉ freeNode) /\ u' = u) \/
  (i ∈ freeNode /\ exists x, u' = <[Z.to_nat i := x]> u).
Proof.
  unfold GSsolveb_body.
  destruct (negb (Arma.is_empty (Arma.find_eq freeNode i))) eqn:E.
  - apply find_eq_nonempty in E. intros H. right. split; [exact E|].
    apply bind_Ret_inv in H as (Ar & _ & H).
    apply bind_Ret_inv in H as (currA & _ & H).
    apply node_update_Ret_inv in H as (? & ? & ? & ? & ? & x & H).
    exists x. apply H.
  - intros [= <-]. left. split; [|reflexivity].
    apply find_eq_empty. apply negb_false_iff in E. exact E.
Qed.

Lemma GSsolve_body_skip (b M : vec) (A : mat) (freeNode : uvec) (Nu i : uword)
    (u : vec) :
  (i ∉ freeNode) -> GSsolve_body FunSCNL1D b M A freeNode Nu i u = Ret u.
Proof.
  intros H. unfold GSsolve_body. apply find_eq_empty in H. rewrite H. reflexivity.
Qed.

Lemma GSsolveb_body_skip (b M : vec) (A : mat) (freeNode : uvec) (Nu i : uword)
    (u : vec) :
  (i ∉ freeNode) -> GSsolveb_body FunSCNL1D b M A freeNode Nu i u = Ret u.
Proof.
  intros H. unfold GSsolveb_body. apply find_eq_empty in H. rewrite H. reflexivity.
Qed.

(** On a system of the right sizes a pass of the backward loop returns at
    every counter, as long as node 0 is not free. *)
Lemma GSsolveb_body_Ret (N : Z) (b u M : vec) (A : mat) (freeNode : uvec)
    (i : uword) :
  N < uword_modulus -> well_dimensioned N b u M A ->
  (forall j, j ∈ freeNode -> 1 <= j < N) ->
  exists u', GSsolveb_body FunSCNL1D b M A freeNode N i u = Ret u' /\
             well_dimensioned N b u' M A.
Proof.
  intros HN Hwd Hfree.
  destruct (decide (i ∈ freeNode)) as [Hi|Hi].
  - apply Hfree in Hi as Hr. unfold GSsolveb_body.
    apply find_eq_nonempty in Hi. rewrite Hi.
    destruct Hwd as (Hu & Hb & HM & HA & HAr).
    destruct (at_Ret A i) as (Ar & -> & HAi); [lia|]. simpl.
    assert (Arma.n_rows Ar = N) as HArN.
    { rewrite Forall_forall in HAr. apply HAr. eapply list_elem_of_lookup_2, HAi. }
    rewrite (GSsolveb_currA_Ret N) by (auto; lia). simpl.
    edestruct (node_update_Ret N b u M A i) as [x ->]; [repeat split; eauto | lia |].
    eexists. split; [reflexivity|].
    repeat split; auto. rewrite <- Hu. unfold Arma.n_rows. f_equal. apply length_insert.
  - exists u. split; [apply GSsolveb_body_skip; exact Hi | exact Hwd].
Qed.

Lemma GSsolveb_loop_forever (N : Z) (b M : vec) (A : mat) (freeNode : uvec) :
  N < uword_modulus ->
  (forall j, j ∈ freeNode -> 1 <= j < N) ->
  forall (fuel : nat) (i : uword) (u : vec),
    0 <= i -> well_dimensioned N b u M A ->
    for_down fuel (GSsolveb_body FunSCNL1D b M A freeNode N) i u = OutOfFuel.
Proof.
  intros HN Hfree fuel. induction fuel as [|fuel IH]; intros i u Hi Hwd; simpl.
  - destruct (Z.leb_spec 0 i); [reflexivity | lia].
  - destruct (Z.leb_spec 0 i); [|lia].
    destruct (GSsolveb_body_Ret N b u M A freeNode i HN Hwd Hfree) as (u' & -> & Hwd').
    simpl. apply IH; [apply wrap_range | exact Hwd'].
Qed.

End Sweeps.

(** ** accumArray *)

Lemma elem_cons {A : Type} (v : list A) (q : uword) (qs : uvec) :
  Arma.elem v (q :: qs) =
  (x <- Arma.at_ v q ;; xs <- Arma.elem v qs ;; Ret (x :: xs)).
Proof. reflexivity. Qed.

Lemma elem_find_eq_from (subs : uvec) (i : uword) :
  forall (ar pre : vec),
    length subs = length ar ->
    Arma.elem (pre ++ ar) (Arma.find_eq_from (Z.of_nat (length pre)) subs i) =
    Ret (snd <$> filter (fun kv : uword * double => kv.1 = i) (zip subs ar)).
Proof.
  induction subs as [|k subs IH]; intros ar pre Hlen; simpl.
  - reflexivity.
  - destruct ar as [|y ar]; [discriminate|]. simpl in Hlen.
    assert (Arma.find_eq_from (Z.of_nat (length pre) + 1) subs i =
            Arma.find_eq_from (Z.of_nat (length (pre ++ [y]))) subs i) as Hshift.
    { f_equal. rewrite length_app. simpl. lia. }
    assert (pre ++ y :: ar = (pre ++ [y]) ++ ar) as Happ.
    { rewrite <- app_assoc. reflexivity. }
    rewrite filter_cons. simpl.
    destruct (Z.eqb_spec k i) as [->|Hne].
    + rewrite decide_True by reflexivity. simpl.
      rewrite elem_cons. unfold Arma.at_ at 1. rewrite Nat2Z.id.
      rewrite list_lookup_middle by reflexivity. simpl.
      rewrite Hshift, Happ, IH by lia. reflexivity.
    + rewrite decide_False by exact Hne.
      rewrite Hshift, Happ. apply IH. lia.
Qed.

Lemma elem_find_eq (subs : uvec) (ar : vec) (i : uword) :
  length subs = length ar ->
  Arma.elem ar (Arma.find_eq subs i) =
  Ret (snd <$> filter (fun kv : uword * double => kv.1 = i) (zip subs ar)).
Proof. intros H. apply (elem_find_eq_from subs i ar [] H). Qed.

Lemma accumArray_body_Ret (subs : uvec) (ar S : vec) (i : uword) :
  length subs = length ar -> i < Arma.n_rows S ->
  accumArray_body subs ar i S = Ret (<[Z.to_nat i := sum_by_key subs ar i]> S).
Proof.
  intros Hlen Hi. unfold accumArray_body, sum_by_key.
  pose proof (elem_find_eq subs ar i Hlen) as He.
  destruct (Arma.find_eq subs i) as [|q qs] eqn:Eq; simpl negb; cbv iota.
  - simpl in He. injection He as <-. apply set_at_Ret. exact Hi.
  - rewrite He. simpl. apply set_at_Ret. exact Hi.
Qed.

Lemma accumArray_fold (subs : uvec) (ar : vec) :
  length subs = length ar ->
  forall (l : list uword) (S : vec),
    (forall i, i ∈ l -> 0 <= i < Arma.n_rows S) ->
    exists S', foldO (accumArray_body subs ar) l S = Ret S' /\
      length S' = length S /\
      forall j, 0 <= j ->
        (j ∈ l -> S' !! Z.to_nat j = Some (sum_by_key subs ar j)) /\
        ((j ∉ l) -> S' !! Z.to_nat j = S !! Z.to_nat j).
Proof.
  intros Hlen l. induction l as [|i l IH]; intros S Hl; simpl.
  - exists S. repeat split; auto. intros Hnil. apply elem_of_nil in Hnil. destruct Hnil.
  - assert (0 <= i < Arma.n_rows S) as Hi by (apply Hl; left).
    rewrite accumArray_body_Ret by (auto; lia). simpl.
    destruct (IH (<[Z.to_nat i := sum_by_key subs ar i]> S)) as (S' & HS' & Hlen' & Hj).
    { intros k Hk. unfold Arma.n_rows. rewrite length_insert. apply Hl. right. exact Hk. }
    exists S'. split; [exact HS'|]. rewrite length_insert in Hlen'. split; [exact Hlen'|].
    intros j Hj0. destruct (Hj j Hj0) as [Hin Hout]. split.
    + intros Hjl. destruct (decide (j ∈ l)) as [Hjl'|Hjl']; [auto|].
      apply elem_of_cons in Hjl as [->|Hjl]; [|contradiction].
      rewrite Hout by exact Hjl'. apply list_lookup_insert_eq.
      unfold Arma.n_rows in Hi. lia.
    + intros Hjl. apply not_elem_of_cons in Hjl as [Hne Hjl].
      rewrite Hout by exact Hjl. apply list_lookup_insert_ne. lia.
Qed.

Lemma accumArray_Ret (keys : uvec) (values : vec) (N : uword) :
  is_uword N -> length keys = length values ->
  exists S, accumArray keys values N = Ret S /\ Arma.n_rows S = N /\
    forall i, 0 <= i < N ->
      S !! Z.to_nat i = Some (sum_by_key keys values i) /\
      ((i ∉ keys) -> S !! Z.to_nat i = Some 0%float).
Proof.
  intros [HN0 HN] Hlen. unfold accumArray.
  rewrite for_up_foldO by lia. rewrite Z.sub_0_r.
  destruct (accumArray_fold keys values Hlen (seqZ 0 N) (Arma.zeros N)) as (S & HS & HlenS & Hj).
  { intros i Hi. apply elem_of_seqZ in Hi. unfold Arma.n_rows, Arma.zeros.
    rewrite length_replicate. lia. }
  exists S. split; [exact HS|]. unfold Arma.zeros in HlenS. rewrite length_replicate in HlenS.
  split; [unfold Arma.n_rows; lia|].
  intros i Hi. destruct (Hj i (proj1 Hi)) as [Hin _].
  assert (S !! Z.to_nat i = Some (sum_by_key keys values i)) as HSi.
  { apply Hin. apply elem_of_seqZ. lia. }
  split; [exact HSi|]. intros Hnk. rewrite HSi. f_equal.
  unfold sum_by_key. apply find_eq_empty in Hnk.
  pose proof (elem_find_eq keys values i Hlen) as He.
  destruct (Arma.find_eq keys i); [|discriminate].
  simpl in He. injection He as <-. reflexivity.
Qed.

Lemma accumArray_no_keys (values : vec) (N : uword) :
  is_uword N -> accumArray [] values N = Ret (Arma.zeros N).
Proof.
  intros [HN0 HN]. unfold accumArray.
  rewrite for_up_foldO by lia. rewrite Z.sub_0_r.
  assert (forall l S, (forall i, i ∈ l -> 0 <= i < Arma.n_rows S) ->
            (forall i, i ∈ l -> S !! Z.to_nat i = Some 0%float) ->
            foldO (accumArray_body [] values) l S = Ret S) as Hfold.
  { induction l as [|i l IH]; intros S Hr Hz; simpl; [reflexivity|].
    unfold accumArray_body at 1. simpl.
    rewrite set_at_Ret by (apply Hr; left). simpl.
    rewrite list_insert_id by (apply Hz; left).
    apply IH; intros k Hk; [apply Hr | apply Hz]; right; exact Hk. }
  apply Hfold; intros i Hi; apply elem_of_seqZ in Hi; unfold Arma.n_rows, Arma.zeros.
  - rewrite length_replicate. lia.
  - apply lookup_replicate_2. lia.
Qed.

(** C6: accumArray returns the dense vector of length N whose entry i is the
    sum of the values whose key is i, and 0 where no key is i; duplicate keys
    add up; keys [0,2,2,1] with values [1,2,3,4] and N = 4 give [1,4,5,0]; an
    empty key list gives the zero vector of length N. *)
Theorem accumArray_spec :
  (forall (keys : uvec) (values : vec) (N : uword),
     is_uword N -> length keys = length values ->
     Forall (fun k => 0 <= k < N) keys ->
     exists S, accumArray keys values N = Ret S /\ Arma.n_rows S = N /\
       forall i, 0 <= i < N ->
         S !! Z.to_nat i = Some (sum_by_key keys values i) /\
         ((i ∉ keys) -> S !! Z.to_nat i = Some 0%float)) /\
  accumArray [0; 2; 2; 1] [1; 2; 3; 4]%float 4 = Ret [1; 4; 5; 0]%float /\
  (forall (values : vec) (N : uword),
     is_uword N -> accumArray [] values N = Ret (Arma.zeros N)).
Proof.
  split; [|split].
  - intros keys values N HN Hlen _. apply accumArray_Ret; assumption.
  - vm_compute. reflexivity.
  - apply accumArray_no_keys.
Qed.

Lemma accumArray_spec_witness :
  is_uword 4 /\
  length [0; 2; 2; 1] = length [1; 2; 3; 4]%float /\
  Forall (fun k => 0 <= k < 4) [0; 2; 2; 1] /\
  exists S, accumArray [0; 2; 2; 1] [1; 2; 3; 4]%float 4 = Ret S /\
    Arma.n_rows S = 4 /\
    forall i, 0 <= i < 4 ->
      S !! Z.to_nat i = Some (sum_by_key [0; 2; 2; 1] [1; 2; 3; 4]%float i) /\
      ((i ∉ [0; 2; 2; 1]) -> S !! Z.to_nat i = Some 0%float).
Proof.
  assert (is_uword 4) as H1 by (unfold is_uword, uword_modulus, uword_bits; lia).
  assert (length [0; 2; 2; 1] = length [1; 2; 3; 4]%float) as H2 by reflexivity.
  assert (Forall (fun k => 0 <= k < 4) [0; 2; 2; 1]) as H3
    by (repeat constructor; lia).
  split; [exact H1|]. split; [exact H2|]. split; [exact H3|].
  exact (proj1 accumArray_spec [0; 2; 2; 1] [1; 2; 3; 4]%float 4 H1 H2 H3).
Defined.

(** ** calcRHS *)

Lemma mapO_Ret {A B : Type} (f : A -> outcome B) (g : A -> B) (l : list A) :
  (forall x, x ∈ l -> f x = Ret (g x)) -> mapO f l = Ret (g <$> l).
Proof.
  induction l as [|a l IH]; intros H; simpl; [reflexivity|].
  rewrite H by left. simpl. rewrite IH; [reflexivity|].
  intros x Hx. apply H. right. exact Hx.
Qed.

Lemma fmap_zip_with_fmap {A : Type} (h : double -> double)
    (g : double -> double -> double) (f1 f2 : A -> list double) (l : list A) :
  (fun t => h <$> zip_with g (f1 t) (f2 t)) <$> l =
  (fun t => zip_with (fun a b => h (g a b)) (f1 t) (f2 t)) <$> l.
Proof.
  apply list_fmap_ext. intros _ t _.
  generalize (f1 t) (f2 t). induction l0 as [|a p IH]; intros [|b q]; simpl;
    try reflexivity.
  f_equal. apply IH.
Qed.

Lemma ArmaMat_add_fmap {A : Type} (f g : A -> list double) (l : list A) :
  (forall t, t ∈ l -> length (f t) = length (g t)) ->
  ArmaMat.add (f <$> l) (g <$> l) =
  Ret ((fun t => zip_with PrimFloat.add (f t) (g t)) <$> l).
Proof.
  induction l as [|t l IH]; intros H; [reflexivity|].
  rewrite !fmap_cons. cbn [ArmaMat.add].
  unfold Arma.add at 1. rewrite zip_with_checked_Ret by (apply H; left).
  cbn [bind]. rewrite IH; [reflexivity|]. intros x Hx. apply H. right. exact Hx.
Qed.

Lemma Arma_add_fmap {A : Type} (f g : A -> double) (l : list A) :
  Arma.add (f <$> l) (g <$> l) = Ret ((fun t => PrimFloat.add (f t) (g t)) <$> l).
Proof.
  unfold Arma.add. rewrite zip_with_checked_Ret by (rewrite !length_fmap; reflexivity).
  f_equal. induction l as [|t l IH]; simpl; [reflexivity|]. f_equal. exact IH.
Qed.

Lemma scaled_loads {A : Type} (g : A -> double) (s : double) (l : list A) (a : vec) :
  (fun x => PrimFloat.div x s) <$> zip_with PrimFloat.mul a (g <$> l) =
  zip_with (fun t y => PrimFloat.div (PrimFloat.mul y (g t)) s) l a.
Proof.
  revert a. induction l as [|t l IH]; intros [|y a]; simpl; try reflexivity.
  f_equal. apply IH.
Qed.

Section CalcRHS.

Variable fun_of : FunName -> Fun.
Variable self : FiniteElemNL.
Hypothesis Hmesh : well_formed_mesh (mesh self).

#[local] Abbreviation m := (mesh self).
#[local] Abbreviation F := (fun_of (pde self)).

Lemma col_elem (k : nat) :
  (k < 3)%nat -> Arma.col (elem m) (Z.of_nat k) = Ret (vertex_keys m k).
Proof.
  intros Hk. unfold Arma.col, vertex_keys. apply mapO_Ret.
  intros t Ht. destruct Hmesh as (_ & _ & _ & Hel).
  rewrite Forall_forall in Hel. destruct (Hel t Ht) as (v0 & v1 & v2 & -> & _).
  unfold Arma.at_, vertex. rewrite Nat2Z.id.
  destruct k as [|[|[|k]]]; try reflexivity. lia.
Qed.

Lemma vertex_in_range (k : nat) (t : list uword) :
  t ∈ elem m -> (k < 3)%nat -> 0 <= vertex k t < Arma.n_rows (node m).
Proof.
  intros Ht Hk. destruct Hmesh as (_ & _ & _ & Hel).
  rewrite Forall_forall in Hel. destruct (Hel t Ht) as (v0 & v1 & v2 & -> & Hr).
  rewrite Forall_forall in Hr. apply Hr.
  unfold vertex. destruct k as [|[|[|k]]]; simpl; [| | |lia].
  - left.
  - right; left.
  - right; right; left.
Qed.

Lemma rows_elem (k : nat) :
  (k < 3)%nat ->
  Arma.elem (node m) (vertex_keys m k) =
  Ret ((fun t => point m (vertex k t)) <$> elem m).
Proof.
  intros Hk. unfold Arma.elem, vertex_keys.
  rewrite (mapO_Ret _ (point m)).
  - rewrite <- list_fmap_compose. reflexivity.
  - intros v Hv. apply list_elem_of_fmap in Hv as (t & -> & Ht).
    destruct (at_Ret (node m) (vertex k t)) as (p & -> & Hp).
    { apply vertex_in_range; assumption. }
    unfold point. rewrite Hp. reflexivity.
Qed.

Lemma point_length (j k : nat) (t : list uword) :
  t ∈ elem m -> (j < 3)%nat -> (k < 3)%nat ->
  length (point m (vertex j t)) = length (point m (vertex k t)).
Proof.
  intros Ht Hj Hk. destruct Hmesh as (_ & _ & (d & Hd) & _).
  rewrite Forall_forall in Hd.
  assert (forall k, (k < 3)%nat -> length (point m (vertex k t)) = d) as Hlen.
  { intros k' Hk'. destruct (at_Ret (node m) (vertex k' t)) as (p & _ & Hp).
    { apply vertex_in_range; assumption. }
    unfold point. rewrite Hp. simpl. apply Hd. eapply list_elem_of_lookup_2, Hp. }
  rewrite !Hlen by assumption. reflexivity.
Qed.

Lemma div_scalar_midpoints (j k : nat) :
  ArmaMat.div_scalar
    ((fun t => zip_with PrimFloat.add (point m (vertex j t)) (point m (vertex k t)))
       <$> elem m) 2%float =
  (fun t => midpoint (point m (vertex j t)) (point m (vertex k t))) <$> elem m.
Proof.
  unfold ArmaMat.div_scalar. change (map ?f ?l) with (f <$> l).
  rewrite <- list_fmap_compose. unfold compose.
  apply (fmap_zip_with_fmap (fun x => PrimFloat.div x 2%float) PrimFloat.add).
Qed.

Lemma evalF_fmap (g : list uword -> list double) :
  evalF F (g <$> elem m) = (fun t => evalF_row F (g t)) <$> elem m.
Proof. unfold evalF. change (map ?f ?l) with (f <$> l). symmetry. apply list_fmap_compose. Qed.

Lemma schur_area (h : list uword -> double) :
  Arma.schur (area m) (h <$> elem m) =
  Ret (zip_with PrimFloat.mul (area m) (h <$> elem m)).
Proof.
  unfold Arma.schur. apply zip_with_checked_Ret.
  rewrite length_fmap. apply Hmesh.
Qed.

Lemma omap_vertex (k : nat) :
  (k < 3)%nat -> omap (fun r : list uword => r !! k) (elem m) = vertex_keys m k.
Proof.
  intros Hk. unfold vertex_keys. destruct Hmesh as (_ & _ & _ & Hel).
  induction Hel as [|t l (v0 & v1 & v2 & -> & _) _ IH]; [reflexivity|].
  cbn [omap list_omap fmap list_fmap]. rewrite IH.
  destruct k as [|[|[|k]]]; try reflexivity. lia.
Qed.

Lemma vectorise_elem :
  ArmaMat.vectorise (elem m) = vertex_keys m 0 ++ vertex_keys m 1 ++ vertex_keys m 2.
Proof.
  unfold ArmaMat.vectorise.
  destruct (elem m) as [|t l] eqn:E; [unfold vertex_keys; rewrite E; reflexivity|].
  assert (ArmaMat.n_cols (t :: l) = 3%nat) as ->.
  { destruct Hmesh as (_ & _ & _ & Hel). rewrite E in Hel.
    inversion Hel as [|? ? (v0 & v1 & v2 & -> & _) _]. reflexivity. }
  rewrite <- E. cbn [seq map concat].
  rewrite !omap_vertex by lia. rewrite app_nil_r. reflexivity.
Qed.

Lemma calcRHS_loads :
  calcRHS fun_of self =
  accumArray (vertex_keys m 0 ++ vertex_keys m 1 ++ vertex_keys m 2)
    (vertex_loads F m 0 ++ vertex_loads F m 1 ++ vertex_loads F m 2)
    (Arma.n_rows (node m)).
Proof.
  unfold calcRHS. cbv zeta.
  pose proof (col_elem 0) as H0. pose proof (col_elem 1) as H1.
  pose proof (col_elem 2) as H2.
  change (Z.of_nat 0) with 0 in H0. change (Z.of_nat 1) with 1 in H1.
  change (Z.of_nat 2) with 2 in H2.
  rewrite H0, H1, H2 by lia. cbn [bind].
  rewrite !rows_elem by lia. cbn [bind].
  rewrite !ArmaMat_add_fmap by (intros t Ht; apply point_length; [exact Ht|lia..]).
  cbn [bind].
  rewrite !div_scalar_midpoints, !evalF_fmap, !Arma_add_fmap. cbn [bind].
  rewrite !schur_area. cbn [bind].
  change (map ?f ?l) with (f <$> l).
  rewrite !scaled_loads, vectorise_elem.
  unfold Arma.join_vert. rewrite <- app_assoc. reflexivity.
Qed.

End CalcRHS.

(** C7: calcRHS is the scatter-accumulation, into a vector of length N, of
    the per-vertex loads of all triangles (area times the sum of the source at
    the midpoints of the two edges that meet at the vertex, over 6), listed
    vertex 0 first, then vertex 1, then vertex 2, against the connectivity
    table flattened in the same order: entry i of the result is the sum of
    the loads listed against node i, and 0 for a node of no triangle.  The
    embedding is a function of the object: the mesh it reads is not changed. *)
Theorem calcRHS_spec (fun_of : FunName -> Fun) (self : FiniteElemNL) :
  well_formed_mesh (mesh self) ->
  calcRHS fun_of self =
    accumArray
      (vertex_keys (mesh self) 0 ++ vertex_keys (mesh self) 1 ++
       vertex_keys (mesh self) 2)
      (vertex_loads (fun_of (pde self)) (mesh self) 0 ++
       vertex_loads (fun_of (pde self)) (mesh self) 1 ++
       vertex_loads (fun_of (pde self)) (mesh self) 2)
      (Arma.n_rows (node (mesh self))) /\
  exists b, calcRHS fun_of self = Ret b /\
    Arma.n_rows b = Arma.n_rows (node (mesh self)) /\
    forall i, 0 <= i < Arma.n_rows (node (mesh self)) ->
      b !! Z.to_nat i =
        Some (sum_by_key
                (vertex_keys (mesh self) 0 ++ vertex_keys (mesh self) 1 ++
                 vertex_keys (mesh self) 2)
                (vertex_loads (fun_of (pde self)) (mesh self) 0 ++
                 vertex_loads (fun_of (pde self)) (mesh self) 1 ++
                 vertex_loads (fun_of (pde self)) (mesh self) 2) i) /\
      ((i ∉ vertex_keys (mesh self) 0 ++ vertex_keys (mesh self) 1 ++
            vertex_keys (mesh self) 2) ->
       b !! Z.to_nat i = Some 0%float).
Proof.
  intros Hmesh. pose proof (calcRHS_loads fun_of self Hmesh) as Heq.
  split; [exact Heq|]. rewrite Heq.
  destruct (accumArray_Ret
    (vertex_keys (mesh self) 0 ++ vertex_keys (mesh self) 1 ++ vertex_keys (mesh self) 2)
    (vertex_loads (fun_of (pde self)) (mesh self) 0 ++
       vertex_loads (fun_of (pde self)) (mesh self) 1 ++
       vertex_loads (fun_of (pde self)) (mesh self) 2)
    (Arma.n_rows (node (mesh self)))) as (b & Hb & Hlen & Hent).
  - destruct Hmesh as (HN & _). unfold is_uword, Arma.n_rows in *. lia.
  - destruct Hmesh as (_ & Ha & _). unfold vertex_keys, vertex_loads.
    rewrite !length_app, !length_fmap, !length_zip_with. lia.
  - exists b. auto.
Qed.

Lemma ex_mesh_well_formed : well_formed_mesh ex_mesh.
Proof.
  unfold well_formed_mesh. simpl. split; [|split; [|split]].
  - reflexivity.
  - reflexivity.
  - exists 2%nat. repeat constructor.
  - constructor; [|constructor]. exists 0, 1, 2. split; [reflexivity|].
    repeat constructor; lia.
Qed.

Lemma ex_square_well_formed : well_formed_mesh ex_square.
Proof.
  unfold well_formed_mesh. simpl. split; [|split; [|split]].
  - reflexivity.
  - reflexivity.
  - exists 2%nat. repeat constructor.
  - constructor; [|constructor; [|constructor]].
    + exists 0, 1, 2. split; [reflexivity|]. repeat constructor; lia.
    + exists 1, 3, 2. split; [reflexivity|]. repeat constructor; lia.
Qed.

(** On the square the nodes 1 and 2 belong to both triangles: their entries
    add one load of each triangle (keys [0,1,1,3,2,2] in column order). *)
Lemma calcRHS_spec_witness :
  well_formed_mesh (mesh ex_square_self) /\
  calcRHS ex_fun_of ex_square_self =
    Ret [0.66666666666666663; 2.666666666666667; 2.666666666666667; 2]%float /\
  vertex_keys ex_square 0 ++ vertex_keys ex_square 1 ++ vertex_keys ex_square 2 =
    [0; 1; 1; 3; 2; 2] /\
  forall i, 0 <= i < 4 ->
    [0.66666666666666663; 2.666666666666667; 2.666666666666667; 2]%float
      !! Z.to_nat i =
    Some (sum_by_key [0; 1; 1; 3; 2; 2]
            (vertex_loads (ex_fun_of FunBoltz) ex_square 0 ++
             vertex_loads (ex_fun_of FunBoltz) ex_square 1 ++
             vertex_loads (ex_fun_of FunBoltz) ex_square 2) i).
Proof.
  assert (calcRHS ex_fun_of ex_square_self =
          Ret [0.66666666666666663; 2.666666666666667; 2.666666666666667; 2]%float)
    as Hrun by (vm_compute; reflexivity).
  destruct (calcRHS_spec ex_fun_of ex_square_self ex_square_well_formed)
    as (_ & b & Hb & _ & Hent).
  rewrite Hrun in Hb. injection Hb as <-.
  split; [exact ex_square_well_formed|]. split; [exact Hrun|].
  split; [reflexivity|].
  intros i Hi. exact (proj1 (Hent i Hi)).
Defined.

(** ** What the loops visit, and what they leave alone *)

Lemma descZ_cons (hi : Z) (n : nat) : descZ hi (S n) = hi :: descZ (hi - 1) n.
Proof.
  unfold descZ. cbn [seq fmap list_fmap]. f_equal; [lia|].
  rewrite <- fmap_S_seq, <- list_fmap_compose.
  apply list_fmap_ext. intros _ k _. simpl. lia.
Qed.

Lemma elem_of_descZ (hi : Z) (n : nat) (k : Z) :
  k ∈ descZ hi n <-> hi - Z.of_nat n < k <= hi.
Proof.
  unfold descZ. rewrite list_elem_of_fmap. split.
  - intros (x & -> & Hx). apply elem_of_seq in Hx. lia.
  - intros H. exists (Z.to_nat (hi - k)). split; [lia|]. apply elem_of_seq. lia.
Qed.

Lemma for_down_state_foldO {S : Type} (body : uword -> S -> outcome S) :
  forall (n : nat) (i : uword) (s : S),
    Z.of_nat n <= i < uword_modulus ->
    for_down_state n body i s =
    (s' <- foldO body (descZ i n) s ;; Ret (i - Z.of_nat n, s')).
Proof.
  induction n as [|n IH]; intros i s Hi.
  - simpl. rewrite Z.sub_0_r. reflexivity.
  - rewrite descZ_cons. cbn [for_down_state foldO].
    destruct (Z.leb_spec 0 i); [|lia].
    destruct (body i s) as [s'| |]; cbn [bind]; try reflexivity.
    rewrite wrap_small by (unfold is_uword; lia).
    rewrite IH by lia.
    replace (i - Z.of_nat (Datatypes.S n)) with (i - 1 - Z.of_nat n) by lia. reflexivity.
Qed.

Section Frozen.

Variable body : uword -> list double -> outcome (list double).
Variable free : list uword.
Hypothesis body_writes_free :
  forall i u u', body i u = Ret u' ->
    u' = u \/ (i ∈ free /\ exists x, u' = <[Z.to_nat i := x]> u).
Variable j : uword.
Hypothesis j_index : 0 <= j.
Hypothesis j_fixed : j ∉ free.

Lemma body_frozen (i : uword) (u u' : list double) :
  0 <= i -> body i u = Ret u' -> u' !! Z.to_nat j = u !! Z.to_nat j.
Proof.
  intros Hi H. apply body_writes_free in H as [->|(Hfree & x & ->)]; [reflexivity|].
  apply list_lookup_insert_ne. intros E. apply j_fixed.
  replace j with i by lia. exact Hfree.
Qed.

Lemma foldO_frozen (l : list uword) :
  (forall i, i ∈ l -> 0 <= i) ->
  forall u u', foldO body l u = Ret u' -> u' !! Z.to_nat j = u !! Z.to_nat j.
Proof.
  induction l as [|i l IH]; intros Hl u u' H; simpl in H.
  - injection H as <-. reflexivity.
  - apply bind_Ret_inv in H as (v & Hv & H).
    rewrite (IH (fun k Hk => Hl k (list_elem_of_further _ _ _ Hk)) v u' H).
    apply (body_frozen i); [apply Hl; left | exact Hv].
Qed.

Lemma for_down_state_frozen (n : nat) :
  forall (i : uword) (u : list double) (i' : uword) (u' : list double),
    0 <= i -> for_down_state n body i u = Ret (i', u') ->
    u' !! Z.to_nat j = u !! Z.to_nat j.
Proof.
  induction n as [|n IH]; intros i u i' u' Hi H; simpl in H.
  - injection H as _ <-. reflexivity.
  - destruct (Z.leb_spec 0 i); [|lia].
    apply bind_Ret_inv in H as (v & Hv & H).
    rewrite (IH _ _ _ _ (proj1 (wrap_range (i - 1))) H).
    apply (body_frozen i); assumption.
Qed.

Lemma for_down_frozen (n : nat) :
  forall (i : uword) (u u' : list double),
    0 <= i -> for_down n body i u = Ret u' ->
    u' !! Z.to_nat j = u !! Z.to_nat j.
Proof.
  induction n as [|n IH]; intros i u u' Hi H; simpl in H;
    (destruct (Z.leb_spec 0 i); [|lia]); [discriminate|].
  apply bind_Ret_inv in H as (v & Hv & H).
  rewrite (IH _ _ _ (proj1 (wrap_range (i - 1))) H).
  apply (body_frozen i); assumption.
Qed.

End Frozen.

Lemma GSsolve_foldO (F : list double -> Fun1D) (b u : vec) (maxitr : uword)
    (M : vec) (A : mat) (tol : double) (freeNode : uvec) :
  GSsolve F b u maxitr M A tol freeNode =
  foldO (GSsolve_body F b M A freeNode (Arma.n_rows u))
    (seqZ 1 (wrap (Arma.n_rows u - 1) - 1)) u.
Proof.
  unfold GSsolve. cbv zeta.
  pose proof (wrap_range (Arma.n_rows u - 1)) as [H0 H1].
  apply for_up_foldO; lia.
Qed.

Lemma set_elem_frozen (q : uvec) (j : uword) :
  0 <= j -> (forall i, i ∈ q -> 0 <= i) -> (j ∉ q) ->
  forall (x v v' : vec),
    Arma.set_elem v q x = Ret v' -> v' !! Z.to_nat j = v !! Z.to_nat j.
Proof.
  intros Hj. induction q as [|i q IH]; intros Hq Hjq [|y x] v v' H; simpl in H;
    try discriminate.
  - injection H as <-. reflexivity.
  - apply bind_Ret_inv in H as (w & Hw & H).
    apply set_at_Ret_inv in Hw as [_ ->].
    apply not_elem_of_cons in Hjq as [Hne Hjq].
    rewrite (IH (fun k Hk => Hq k (list_elem_of_further _ _ _ Hk)) Hjq _ _ _ H).
    apply list_lookup_insert_ne. specialize (Hq i (list_elem_of_here _ _)). lia.
Qed.

Lemma set_elem_written (g : uword -> double) (q : uvec) (j : uword) :
  (forall i, i ∈ q -> 0 <= i) -> j ∈ q ->
  forall (v v' : vec),
    Arma.set_elem v q (g <$> q) = Ret v' -> v' !! Z.to_nat j = Some (g j).
Proof.
  induction q as [|i q IH]; intros Hq Hjq v v' H.
  - apply elem_of_nil in Hjq. destruct Hjq.
  - rewrite fmap_cons in H. cbn [Arma.set_elem] in H.
    apply bind_Ret_inv in H as (w & Hw & H).
    assert (forall k, k ∈ q -> 0 <= k) as Hq'
      by (intros k Hk; apply Hq; right; exact Hk).
    destruct (decide (j ∈ q)) as [Hin|Hout].
    + apply (IH Hq' Hin w v' H).
    + apply elem_of_cons in Hjq as [->|Hjq]; [|contradiction].
      assert (0 <= i) as Hi by (apply Hq; left).
      rewrite (set_elem_frozen q i Hi Hq' Hout _ _ _ H).
      apply set_at_Ret_inv in Hw as [Hlt ->].
      apply list_lookup_insert_eq. unfold Arma.n_rows in Hlt. lia.
Qed.

Lemma mapO_Ret_inv {A B : Type} (f : A -> outcome B) (l : list A) (r : list B) :
  mapO f l = Ret r -> Forall2 (fun a b => f a = Ret b) l r.
Proof.
  revert r. induction l as [|a l IH]; intros r H; simpl in H.
  - injection H as <-. constructor.
  - apply bind_Ret_inv in H as (b & Hb & H).
    apply bind_Ret_inv in H as (bs & Hbs & H). injection H as <-.
    constructor; [exact Hb | apply IH; exact Hbs].
Qed.

Lemma elem_points (msh : MeshMG) (q : uvec) (bn : mat) :
  Arma.elem (node msh) q = Ret bn -> bn = point msh <$> q.
Proof.
  intros H. apply mapO_Ret_inv in H.
  induction H as [|v p q bn Hv _ IH]; [reflexivity|].
  rewrite fmap_cons. f_equal; [|exact IH].
  apply at_Ret_inv in Hv. unfold point. rewrite Hv. reflexivity.
Qed.

Lemma initial_u_boundary (bdf : Fun) (msh : MeshMG) (u0 : vec) (j : uword) :
  (forall i, i ∈ bdNode msh -> 0 <= i) -> j ∈ bdNode msh ->
  initial_u bdf msh = Ret u0 ->
  u0 !! Z.to_nat j = Some (evalF_row bdf (point msh j)).
Proof.
  intros Hbd Hj H. unfold initial_u in H. cbv zeta in H.
  apply bind_Ret_inv in H as (bn & Hbn & H).
  apply elem_points in Hbn. subst bn.
  unfold evalF in H. change (map ?f ?l) with (f <$> l) in H.
  rewrite <- list_fmap_compose in H.
  apply (set_elem_written (evalF_row bdf ∘ point msh) _ j Hbd Hj _ _ H).
Qed.

Section GlobalNewton.

Variable fun_of : FunName -> Fun.
Variable solve : list (list double) -> list double -> outcome (list double).
Variable self : FiniteElemNL.

Lemma NWTsolve_step_frozen (b M : vec) (A : mat) (freeNode : uvec) (u r : vec)
    (u' r' : vec) (err : double) (j : uword) :
  0 <= j -> (forall i, i ∈ freeNode -> 0 <= i) -> (j ∉ freeNode) ->
  NWTsolve_step fun_of solve self b M A freeNode u r = Ret (u', r', err) ->
  u' !! Z.to_nat j = u !! Z.to_nat j.
Proof.
  intros Hj Hfree Hjf H. unfold NWTsolve_step in H. cbv zeta in H.
  apply bind_Ret_inv in H as (Df & _ & H).
  apply bind_Ret_inv in H as (B & _ & H).
  apply bind_Ret_inv in H as (Bff & _ & H).
  apply bind_Ret_inv in H as (e & _ & H).
  apply bind_Ret_inv in H as (uf & _ & H).
  apply bind_Ret_inv in H as (d & _ & H).
  apply bind_Ret_inv in H as (w & Hw & H).
  apply bind_Ret_inv in H as (rn & _ & H).
  injection H as <- _ _.
  apply (set_elem_frozen freeNode j Hj Hfree Hjf _ _ _ Hw).
Qed.

Lemma NWTsolve_loop_frozen (b M : vec) (A : mat) (freeNode : uvec)
    (maxitr : uword) (tol : double) (j : uword) :
  0 <= j -> (forall i, i ∈ freeNode -> 0 <= i) -> (j ∉ freeNode) ->
  forall (fuel : nat) (u r : vec) (err : double) (k : uword) (u' : vec),
    NWTsolve_loop fun_of solve fuel self b M A freeNode maxitr tol u r err k = Ret u' ->
    u' !! Z.to_nat j = u !! Z.to_nat j.
Proof.
  intros Hj Hfree Hjf fuel.
  induction fuel as [|fuel IH]; intros u r err k u' H; simpl in H.
  - destruct ((k <? maxitr) && PrimFloat.ltb tol err); [discriminate|].
    injection H as <-. reflexivity.
  - destruct ((k <? maxitr) && PrimFloat.ltb tol err).
    + apply bind_Ret_inv in H as ([[v r'] err'] & Hstep & H).
      rewrite (IH _ _ _ _ _ H).
      apply (NWTsolve_step_frozen _ _ _ _ _ _ _ _ _ _ Hj Hfree Hjf Hstep).
    + injection H as <-. reflexivity.
Qed.

Lemma NWTsolve_frozen (b u : vec) (maxitr : uword) (M : vec) (A : mat)
    (tol : double) (freeNode : uvec) (j : uword) (u' : vec) :
  0 <= j -> (forall i, i ∈ freeNode -> 0 <= i) -> (j ∉ freeNode) ->
  NWTsolve fun_of solve self b u maxitr M A tol freeNode = Ret u' ->
  u' !! Z.to_nat j = u !! Z.to_nat j.
Proof.
  intros Hj Hfree Hjf H. unfold NWTsolve in H. cbv zeta in H.
  apply bind_Ret_inv in H as (rn & _ & H).
  apply (NWTsolve_loop_frozen _ _ _ _ _ _ _ Hj Hfree Hjf _ _ _ _ _ _ H).
Qed.

End GlobalNewton.

Section Driver.

Variable F : list double -> Fun1D.
Variable freeNode : list uword.
Variable j : uword.
Hypothesis j_index : 0 <= j.
Hypothesis j_fixed : j ∉ freeNode.

Lemma GSsolve_frozen (b u : vec) (maxitr : uword) (M : vec) (A : mat)
    (tol : double) (u' : vec) :
  GSsolve F b u maxitr M A tol freeNode = Ret u' ->
  u' !! Z.to_nat j = u !! Z.to_nat j.
Proof.
  intros H. rewrite GSsolve_foldO in H.
  eapply (foldO_frozen _ freeNode); [| exact j_index | exact j_fixed | | exact H].
  - intros i v v' Hb. apply GSsolve_body_Ret_inv in Hb as [[_ ->]|Hb]; auto.
  - intros i Hi. apply elem_of_seqZ in Hi. lia.
Qed.

Lemma GSsolveb_state_frozen (n : nat) (b u M : vec) (A : mat) (i' : uword)
    (u' : vec) :
  GSsolveb_state F n b u M A freeNode = Ret (i', u') ->
  u' !! Z.to_nat j = u !! Z.to_nat j.
Proof.
  intros H. unfold GSsolveb_state in H.
  eapply (for_down_state_frozen _ freeNode);
    [| exact j_index | exact j_fixed | apply wrap_range | exact H].
  intros i v v' Hb. apply GSsolveb_body_Ret_inv in Hb as [[_ ->]|Hb]; auto.
Qed.

Lemma GSsolveb_frozen (fuel : nat) (b u : vec) (maxitr : uword) (M : vec)
    (A : mat) (tol : double) (u' : vec) :
  GSsolveb F fuel b u maxitr M A tol freeNode = Ret u' ->
  u' !! Z.to_nat j = u !! Z.to_nat j.
Proof.
  intros H. unfold GSsolveb in H.
  eapply (for_down_frozen _ freeNode);
    [| exact j_index | exact j_fixed | apply wrap_range | exact H].
  intros i v v' Hb. apply GSsolveb_body_Ret_inv in Hb as [[_ ->]|Hb]; auto.
Qed.

Lemma Driver_loop_frozen (fuelb : nat) (b Mv : vec) (A : mat) (fu : vec)
    (tol : double) :
  forall (fuel : nat) (u : vec) (err : double) (k : uword) (u' : vec),
    Driver_loop F fuel fuelb b Mv A freeNode fu tol u err k = Ret u' ->
    u' !! Z.to_nat j = u !! Z.to_nat j.
Proof.
  induction fuel as [|fuel IH]; intros u err k u' H; simpl in H.
  - destruct ((k <? 10) && PrimFloat.ltb tol err); [discriminate|].
    injection H as <-. reflexivity.
  - destruct ((k <? 10) && PrimFloat.ltb tol err).
    + apply bind_Ret_inv in H as ([v err'] & Hit & H).
      rewrite (IH _ _ _ _ H). cbn [fst].
      unfold Driver_iteration in Hit.
      apply bind_Ret_inv in Hit as (u1 & H1 & Hit).
      apply bind_Ret_inv in Hit as (u2 & H2 & Hit).
      apply bind_Ret_inv in Hit as (e & _ & Hit).
      injection Hit as <- _.
      rewrite (GSsolveb_frozen _ _ _ _ _ _ _ _ H2).
      apply (GSsolve_frozen _ _ _ _ _ _ _ H1).
    + injection H as <-. reflexivity.
Qed.

End Driver.

Lemma GSsolve_body_Ret (F : list double -> Fun1D) (N : Z) (b u M : vec) (A : mat)
    (freeNode : uvec) (i : uword) :
  N < uword_modulus -> well_dimensioned N b u M A -> 1 <= i <= N - 2 ->
  exists u', GSsolve_body F b M A freeNode N i u = Ret u' /\
             well_dimensioned N b u' M A.
Proof.
  intros HN Hwd Hi.
  destruct (decide (i ∈ freeNode)) as [Hf|Hf].
  - unfold GSsolve_body. apply find_eq_nonempty in Hf. rewrite Hf.
    destruct Hwd as (Hu & Hb & HM & HA & HAr).
    destruct (at_Ret A i) as (Ar & -> & HAi); [lia|]. cbn [bind].
    assert (Arma.n_rows Ar = N) as HArN.
    { rewrite Forall_forall in HAr. apply HAr. eapply list_elem_of_lookup_2, HAi. }
    rewrite (GSsolve_currA_Ret N) by (auto; lia). cbn [bind].
    edestruct (node_update_Ret F N b u M A i) as [x ->]; [repeat split; eauto | lia |].
    eexists. split; [reflexivity|].
    repeat split; auto. rewrite <- Hu. unfold Arma.n_rows. f_equal. apply length_insert.
  - exists u. split; [apply GSsolve_body_skip; exact Hf | exact Hwd].
Qed.

Lemma GSsolve_returns (F : list double -> Fun1D) (b u : vec) (maxitr : uword)
    (M : vec) (A : mat) (tol : double) (freeNode : uvec) :
  2 <= Arma.n_rows u < uword_modulus ->
  well_dimensioned (Arma.n_rows u) b u M A ->
  exists u', GSsolve F b u maxitr M A tol freeNode = Ret u'.
Proof.
  intros HN Hwd. rewrite GSsolve_foldO.
  rewrite wrap_small by (unfold is_uword; lia).
  set (N := Arma.n_rows u) in *.
  assert (forall l v, (forall i, i ∈ l -> 1 <= i <= N - 2) ->
            well_dimensioned N b v M A ->
            exists u', foldO (GSsolve_body F b M A freeNode N) l v = Ret u') as Hfold.
  { induction l as [|i l IH]; intros v Hl Hv; simpl; [eauto|].
    destruct (GSsolve_body_Ret F N b v M A freeNode i) as (w & -> & Hw);
      [lia | exact Hv | apply Hl; left |].
    cbn [bind]. apply IH; [|exact Hw]. intros k Hk. apply Hl. right. exact Hk. }
  apply Hfold; [|exact Hwd]. intros i Hi. apply elem_of_seqZ in Hi. lia.
Qed.

Lemma GSsolveb_no_return (F : list double -> Fun1D) (fuel : nat) (b u : vec)
    (maxitr : uword) (M : vec) (A : mat) (tol : double) (freeNode : uvec) :
  GSsolveb F fuel b u maxitr M A tol freeNode = Throw \/
  GSsolveb F fuel b u maxitr M A tol freeNode = OutOfFuel.
Proof. unfold GSsolveb. apply for_down_no_return. apply wrap_range. Qed.

(** ** The claims *)

(** C1 (refuted by the code): the backward sweep GSsolveb does not perform a
    bounded traversal.  Its counter is unsigned and the loop test [i >= 0]
    always holds, so whatever the budget of passes the call has not returned:
    it either raised or is still running; on the system of three nodes below,
    with node 1 free, it is still running after every number of passes. *)
Theorem GSsolveb_never_returns :
  (forall (F : list double -> Fun1D) (fuel : nat) (b u : vec) (maxitr : uword)
          (M : vec) (A : mat) (tol : double) (freeNode : uvec),
     GSsolveb F fuel b u maxitr M A tol freeNode = Throw \/
     GSsolveb F fuel b u maxitr M A tol freeNode = OutOfFuel) /\
  (forall fuel : nat,
     GSsolveb cubic1D fuel [1; 1; 1]%float [0; 0; 0]%float 10 [0; 0; 0]%float
       eye3 1e-6%float [1] = OutOfFuel).
Proof.
  split.
  - intros. apply GSsolveb_no_return.
  - intros fuel. unfold GSsolveb.
    apply (GSsolveb_loop_forever cubic1D 3).
    + reflexivity.
    + intros j Hj. apply list_elem_of_singleton in Hj. lia.
    + apply wrap_range.
    + repeat split; try reflexivity. repeat constructor.
Qed.

(** On systems of the right sizes where node 0 is not free the backward sweep
    runs for ever (it does not even raise). *)
Lemma GSsolveb_runs_forever (F : list double -> Fun1D) (fuel : nat) (b u : vec)
    (maxitr : uword) (M : vec) (A : mat) (tol : double) (freeNode : uvec) :
  Arma.n_rows u < uword_modulus ->
  well_dimensioned (Arma.n_rows u) b u M A ->
  (forall j, j ∈ freeNode -> 1 <= j < Arma.n_rows u) ->
  GSsolveb F fuel b u maxitr M A tol freeNode = OutOfFuel.
Proof.
  intros HN Hwd Hfree. unfold GSsolveb.
  apply (GSsolveb_loop_forever F (Arma.n_rows u)); auto. apply wrap_range.
Qed.

(** No pass of the loop of the constructor completes. *)
Lemma Driver_iteration_no_return (F : list double -> Fun1D) (fuelb : nat)
    (b Mv : vec) (A : mat) (freeNode : uvec) (fu u : vec) :
  Driver_iteration F fuelb b Mv A freeNode fu u = Throw \/
  Driver_iteration F fuelb b Mv A freeNode fu u = OutOfFuel.
Proof.
  unfold Driver_iteration.
  destruct (GSsolve F b u 10 Mv A 1e-6%float freeNode) as [v| |]; cbn [bind]; auto.
  destruct (GSsolveb_no_return F fuelb b v 10 Mv A 1e-6%float freeNode)
    as [-> | ->]; cbn [bind]; auto.
Qed.

Lemma GSsolve_returns_sized (F : list double -> Fun1D) (b u : vec) (maxitr : uword)
    (M : vec) (A : mat) (tol : double) (freeNode : uvec) :
  2 <= Arma.n_rows u < uword_modulus ->
  well_dimensioned (Arma.n_rows u) b u M A ->
  exists u', GSsolve F b u maxitr M A tol freeNode = Ret u' /\
             well_dimensioned (Arma.n_rows u) b u' M A.
Proof.
  intros HN Hwd. rewrite GSsolve_foldO.
  rewrite wrap_small by (unfold is_uword; lia).
  set (N := Arma.n_rows u) in *.
  assert (forall l v, (forall i, i ∈ l -> 1 <= i <= N - 2) ->
            well_dimensioned N b v M A ->
            exists u', foldO (GSsolve_body F b M A freeNode N) l v = Ret u' /\
                       well_dimensioned N b u' M A) as Hfold.
  { induction l as [|i l IH]; intros v Hl Hv; simpl; [eauto|].
    destruct (GSsolve_body_Ret F N b v M A freeNode i) as (w & -> & Hw);
      [lia | exact Hv | apply Hl; left |].
    cbn [bind]. apply IH; [|exact Hw]. intros k Hk. apply Hl. right. exact Hk. }
  apply Hfold; [|exact Hwd]. intros i Hi. apply elem_of_seqZ in Hi. lia.
Qed.

(** Once the loop of the constructor is entered on a system of the right
    sizes whose node 0 is not free, its first pass never ends: the forward
    sweep returns and the backward sweep runs for ever. *)
Lemma Driver_loop_stuck (F : list double -> Fun1D) (fuel fuelb : nat) (b Mv : vec)
    (A : mat) (freeNode : uvec) (fu : vec) (tol : double) (u : vec) (err : double)
    (k : uword) :
  2 <= Arma.n_rows u < uword_modulus ->
  well_dimensioned (Arma.n_rows u) b u Mv A ->
  (forall j, j ∈ freeNode -> 1 <= j < Arma.n_rows u) ->
  (k <? 10) && PrimFloat.ltb tol err = true ->
  Driver_loop F (S fuel) fuelb b Mv A freeNode fu tol u err k = OutOfFuel.
Proof.
  intros HN Hwd Hfree Htest. cbn [Driver_loop]. rewrite Htest.
  unfold Driver_iteration.
  destruct (GSsolve_returns_sized F b u 10 Mv A 1e-6%float freeNode HN Hwd)
    as (u1 & -> & Hwd1).
  cbn [bind].
  assert (Arma.n_rows u1 = Arma.n_rows u) as Hlen by apply Hwd1.
  rewrite GSsolveb_runs_forever; [reflexivity | | |]; rewrite Hlen; auto; lia.
Qed.

(** Lines 74-76 taken alone, on a state made by hand: with the term x^3, unit
    masses, no load and the identity for A, a vector [0,2,0] and the [fu] of
    the vector [0,0,0] give the norm 2, the [fu] of [0,2,0] itself gives 10. *)
Lemma Driver_recheck_stale_fu :
  Driver_recheck eye3 [1; 1; 1]%float
    (evalF (ex_fun_of FunSCNL) (as_mat [0; 0; 0]%float))
    [0; 0; 0]%float [1] [0; 2; 0]%float = Ret 2%float /\
  Driver_recheck eye3 [1; 1; 1]%float
    (evalF (ex_fun_of FunSCNL) (as_mat [0; 2; 0]%float))
    [0; 0; 0]%float [1] [0; 2; 0]%float = Ret 10%float.
Proof. split; vm_compute; reflexivity. Qed.

(** C2 (refuted by the code): no outer iteration of the loop of the
    constructor gets as far as the residual: every pass stops in the backward
    sweep, which does not return.  On the one-triangle mesh whose boundary
    values leave the residual -0.5 on the free node, the loop is entered and
    the constructor is still in its first pass whatever the budget of the
    backward sweep; so no residual at the updated u is ever compared with the
    tolerance. *)
Theorem Driver_never_rechecks :
  (forall fuelb : nat,
     FiniteElemNL_new ex_fun_of cubic1D (fun _ => ex_loaded_mesh) fuelb [] "FunSCNL"
     = OutOfFuel) /\
  (initial_u (ex_fun_of FunBoltz) ex_loaded_mesh = Ret [1; 0; 3]%float /\
   residual_norm (stiffness ex_loaded_mesh) [1; 0; 3]%float
     (Arma.diag (mass ex_loaded_mesh))
     (evalF (ex_fun_of FunSCNL) (as_mat [1; 0; 3]%float)) [0; 0; 0]%float
     (freeNode ex_loaded_mesh) = Ret ([-0.5]%float, 0.5%float)) /\
  (forall (F : list double -> Fun1D) (fuelb : nat) (b Mv : vec) (A : mat)
          (freeNode : uvec) (fu u : vec),
     Driver_iteration F fuelb b Mv A freeNode fu u = Throw \/
     Driver_iteration F fuelb b Mv A freeNode fu u = OutOfFuel).
Proof.
  split; [|split; [split; vm_compute; reflexivity | apply Driver_iteration_no_return]].
  intros fuelb. unfold FiniteElemNL_new, choose_functions. cbn [bind]. cbv beta zeta.
  match goal with |- context [calcRHS ?f ?s] =>
    replace (calcRHS f s) with (@Ret (list float) [0; 0; 0]%float)
      by (vm_compute; reflexivity)
  end.
  cbn [bind].
  replace (initial_u (ex_fun_of FunBoltz) ex_loaded_mesh)
    with (@Ret (list float) [1; 0; 3]%float) by (vm_compute; reflexivity).
  cbn [bind].
  match goal with |- context [residual_norm ?a ?x ?c ?d ?e ?f] =>
    replace (residual_norm a x c d e f)
      with (@Ret (list float * float) ([-0.5]%float, 0.5%float))
      by (vm_compute; reflexivity)
  end.
  cbn [bind fst].
  rewrite Driver_loop_stuck; [reflexivity | | | |].
  - split; reflexivity || discriminate.
  - repeat split; try reflexivity. repeat constructor.
  - intros j Hj. apply list_elem_of_singleton in Hj. subst. split; reflexivity || discriminate.
  - vm_compute. reflexivity.
Qed.

(** C3 (refuted by the code): the forward sweep sums A(i,j) u(j) over j < i
    and over j > i; the backward sweep sums over j < i and over j >= i, the
    diagonal term included.  For the row [1,2,3], u = [1,1,1] and i = 1 the
    forward value is 4 and the backward value is 6 = 4 + A(1,1) u(1). *)
Theorem GSsolveb_currA_counts_diagonal :
  GSsolve_currA [1; 2; 3]%float [1; 1; 1]%float 3 1 = Ret 4%float /\
  GSsolveb_currA [1; 2; 3]%float [1; 1; 1]%float 3 1 = Ret 6%float.
Proof. split; vm_compute; reflexivity. Qed.

(** C4: when the free and the boundary indices split the node range, the
    entry of u at a boundary index is the boundary function at that node once
    the constructor has set it, and no forward sweep, no pass of the backward
    sweep, no pass of the loop of the constructor and no global Newton solve
    changes it (the scalar Newton search returns a number and touches no
    vector); the vector a finished construction holds has the boundary value
    there. *)
Theorem boundary_values_frozen (fun_of : FunName -> Fun)
    (F : list double -> Fun1D)
    (solve : list (list double) -> list double -> outcome (list double))
    (self : FiniteElemNL) (msh : MeshMG) (j : uword) :
  partitions (Arma.n_rows (node msh)) (freeNode msh) (bdNode msh) ->
  j ∈ bdNode msh ->
  (forall (bdf : Fun) (u0 : vec),
     initial_u bdf msh = Ret u0 ->
     u0 !! Z.to_nat j = Some (evalF_row bdf (point msh j))) /\
  (forall (b u : vec) (maxitr : uword) (M : vec) (A : mat) (tol : double),
     (forall u', GSsolve F b u maxitr M A tol (freeNode msh) = Ret u' ->
                 u' !! Z.to_nat j = u !! Z.to_nat j) /\
     (forall (n : nat) (i' : uword) (u' : vec),
        GSsolveb_state F n b u M A (freeNode msh) = Ret (i', u') ->
        u' !! Z.to_nat j = u !! Z.to_nat j) /\
     (forall (fuel fuelb : nat) (fu : vec) (err : double) (k : uword) (u' : vec),
        Driver_loop F fuel fuelb b M A (freeNode msh) fu tol u err k = Ret u' ->
        u' !! Z.to_nat j = u !! Z.to_nat j) /\
     (forall u', NWTsolve fun_of solve self b u maxitr M A tol (freeNode msh) = Ret u' ->
                 u' !! Z.to_nat j = u !! Z.to_nat j)) /\
  (forall (MeshMG_refined : list double -> MeshMG) (fuelb : nat)
          (meshprops : list double) (fun_ : string) (obj : FiniteElemNL),
     MeshMG_refined meshprops = msh ->
     FiniteElemNL_new fun_of F MeshMG_refined fuelb meshprops fun_ = Ret obj ->
     u obj !! Z.to_nat j = Some (evalF_row (fun_of (bdfun obj)) (point msh j))).
Proof.
  intros (Hfree & Hbd & _ & Hdisj) Hj.
  assert (0 <= j) as Hj0 by (apply Hbd; exact Hj).
  assert (j ∉ freeNode msh) as Hjf by (intros Hin; exact (Hdisj j Hin Hj)).
  assert (forall i, i ∈ freeNode msh -> 0 <= i) as Hfree0
    by (intros i Hi; apply Hfree; exact Hi).
  assert (forall i, i ∈ bdNode msh -> 0 <= i) as Hbd0
    by (intros i Hi; apply Hbd; exact Hi).
  split; [|split].
  - intros bdf u0 H. apply (initial_u_boundary bdf msh u0 j); auto.
  - intros b u maxitr M A tol. repeat apply conj.
    + intros u' H. eapply GSsolve_frozen; eauto.
    + intros n i' u' H. eapply GSsolveb_state_frozen; eauto.
    + intros fuel fuelb fu err k u' H. eapply Driver_loop_frozen; eauto.
    + intros u' H.
      exact (NWTsolve_frozen fun_of solve self b u maxitr M A tol (freeNode msh) j u'
               Hj0 Hfree0 Hjf H).
  - intros MeshMG_refined fuelb meshprops fun_ obj Hm H.
    unfold FiniteElemNL_new in H. rewrite Hm in H.
    unfold choose_functions in H. cbn [bind] in H. cbv zeta in H.
    apply bind_Ret_inv in H as (b & _ & H).
    apply bind_Ret_inv in H as (u0 & Hu0 & H).
    apply bind_Ret_inv in H as (rn & _ & H).
    apply bind_Ret_inv in H as (u' & Hloop & H).
    injection H as <-. cbn [u bdfun].
    rewrite (Driver_loop_frozen F (freeNode msh) j Hj0 Hjf _ _ _ _ _ _ _ _ _ _ _ Hloop).
    apply (initial_u_boundary _ msh u0 j); auto.
Qed.

Lemma ex_mesh_partitions :
  partitions (Arma.n_rows (node ex_mesh)) (freeNode ex_mesh) (bdNode ex_mesh).
Proof.
  change (partitions 3 [1] [0; 2]).
  assert (forall j : Z, j ∈ [1] -> j = 1) as H1
    by (intros j Hj; apply list_elem_of_singleton in Hj; exact Hj).
  assert (forall j : Z, j ∈ [0; 2] -> j = 0 \/ j = 2) as H02.
  { intros j Hj. apply elem_of_cons in Hj as [->|Hj]; [left; reflexivity|].
    apply list_elem_of_singleton in Hj. right. exact Hj. }
  split; [|split; [|split]].
  - intros j Hj. apply H1 in Hj. lia.
  - intros j Hj. apply H02 in Hj. lia.
  - intros j [Hj0 Hj3].
    assert (j = 0 \/ j = 1 \/ j = 2) as [-> | [-> | ->]] by lia.
    + right. left.
    + left. left.
    + right. right. left.
  - intros j Hf Hb. apply H1 in Hf. apply H02 in Hb. lia.
Qed.

Lemma boundary_values_frozen_witness :
  partitions (Arma.n_rows (node ex_mesh)) (freeNode ex_mesh) (bdNode ex_mesh) /\
  2 ∈ bdNode ex_mesh /\
  initial_u (ex_fun_of FunBoltz) ex_mesh = Ret [0; 0; 2]%float /\
  [0; 0; 2]%float !! Z.to_nat 2 = Some (evalF_row (ex_fun_of FunBoltz) (point ex_mesh 2)) /\
  GSsolve cubic1D [1; 1; 1]%float [0; 0; 2]%float 10 [0; 0; 0]%float eye3
    1e-6%float (freeNode ex_mesh) = Ret [0; -1; 2]%float /\
  [0; -1; 2]%float !! Z.to_nat 2 = [0; 0; 2]%float !! Z.to_nat 2 /\
  GSsolveb_state cubic1D 3 [1; 1; 1]%float [0; 0; 2]%float [0; 0; 0]%float eye3
    (freeNode ex_mesh) = Ret (18446744073709551614, [0; -1; 2]%float) /\
  NWTsolve ex_fun_of (fun _ r => Ret r) ex_self [1; 1; 1]%float [0; 0; 2]%float 10
    [0; 0; 0]%float eye3 1e-6%float (freeNode ex_mesh) = Ret [0; 1; 2]%float /\
  [0; 1; 2]%float !! Z.to_nat 2 = [0; 0; 2]%float !! Z.to_nat 2.
Proof.
  assert (2 ∈ bdNode ex_mesh) as Hin by (right; left).
  assert (initial_u (ex_fun_of FunBoltz) ex_mesh = Ret [0; 0; 2]%float) as Hinit
    by (vm_compute; reflexivity).
  assert (GSsolve cubic1D [1; 1; 1]%float [0; 0; 2]%float 10 [0; 0; 0]%float eye3
            1e-6%float (freeNode ex_mesh) = Ret [0; -1; 2]%float) as Hsweep
    by (vm_compute; reflexivity).
  assert (NWTsolve ex_fun_of (fun _ r => Ret r) ex_self [1; 1; 1]%float
            [0; 0; 2]%float 10 [0; 0; 0]%float eye3 1e-6%float (freeNode ex_mesh)
          = Ret [0; 1; 2]%float) as Hnwt
    by (vm_compute; reflexivity).
  pose proof (boundary_values_frozen ex_fun_of cubic1D (fun _ r => Ret r) ex_self
                ex_mesh 2 ex_mesh_partitions Hin) as (Hset & Hkeep & _).
  destruct (Hkeep [1; 1; 1]%float [0; 0; 2]%float 10 [0; 0; 0]%float eye3
              1e-6%float) as (Hf & _ & _ & Hn).
  split; [exact ex_mesh_partitions|]. split; [exact Hin|].
  split; [exact Hinit|]. split; [exact (Hset _ _ Hinit)|].
  split; [exact Hsweep|]. split; [exact (Hf _ Hsweep)|].
  split; [vm_compute; reflexivity|].
  split; [exact Hnwt|]. exact (Hn _ Hnwt).
Defined.

Lemma NoDup_descZ (hi : Z) (n : nat) : NoDup (descZ hi n).
Proof.
  unfold descZ. apply NoDup_fmap_2; [|apply NoDup_seq].
  intros x y H. lia.
Qed.

(** C5 (as amended): the forward sweep runs its pass at the indices
    1, ..., N-2 in increasing order and the backward sweep starts at N-2 and
    runs its passes in decreasing order down to index 1; a pass at an index
    that is not free leaves the vector as it is and a pass at a free index
    writes that entry only.  So a forward sweep updates every free node of
    1..N-2 exactly once, and never index 0 or index N-1; on a system of the
    right sizes it returns. *)
Theorem sweep_traversal (F : list double -> Fun1D) (b u : vec) (maxitr : uword)
    (M : vec) (A : mat) (tol : double) (freeNode : uvec) :
  2 <= Arma.n_rows u < uword_modulus ->
  GSsolve F b u maxitr M A tol freeNode =
    foldO (GSsolve_body F b M A freeNode (Arma.n_rows u))
      (seqZ 1 (Arma.n_rows u - 2)) u /\
  (forall n : nat, Z.of_nat n <= Arma.n_rows u - 2 ->
     GSsolveb_state F n b u M A freeNode =
     (u' <- foldO (GSsolveb_body F b M A freeNode (Arma.n_rows u))
              (descZ (Arma.n_rows u - 2) n) u ;;
      Ret (Arma.n_rows u - 2 - Z.of_nat n, u'))) /\
  (forall (i : uword) (v : vec), (i ∉ freeNode) ->
     GSsolve_body F b M A freeNode (Arma.n_rows u) i v = Ret v /\
     GSsolveb_body F b M A freeNode (Arma.n_rows u) i v = Ret v) /\
  (forall (i : uword) (v v' : vec), i ∈ freeNode ->
     GSsolve_body F b M A freeNode (Arma.n_rows u) i v = Ret v' \/
     GSsolveb_body F b M A freeNode (Arma.n_rows u) i v = Ret v' ->
     exists x, v' = <[Z.to_nat i := x]> v) /\
  (NoDup (seqZ 1 (Arma.n_rows u - 2)) /\
   forall k, k ∈ seqZ 1 (Arma.n_rows u - 2) <-> 1 <= k <= Arma.n_rows u - 2) /\
  (forall n : nat,
     NoDup (descZ (Arma.n_rows u - 2) n) /\
     forall k, k ∈ descZ (Arma.n_rows u - 2) n <->
               Arma.n_rows u - 2 - Z.of_nat n < k <= Arma.n_rows u - 2) /\
  (well_dimensioned (Arma.n_rows u) b u M A ->
   exists u', GSsolve F b u maxitr M A tol freeNode = Ret u').
Proof.
  intros HN. repeat apply conj.
  - rewrite GSsolve_foldO. rewrite wrap_small by (unfold is_uword; lia).
    do 2 f_equal. lia.
  - intros n Hn. unfold GSsolveb_state. cbv zeta.
    rewrite wrap_small by (unfold is_uword; lia).
    apply for_down_state_foldO. lia.
  - intros i v Hi. split; [apply GSsolve_body_skip | apply GSsolveb_body_skip]; exact Hi.
  - intros i v v' Hi [H|H].
    + apply GSsolve_body_Ret_inv in H as [[Hn _]|[_ H]]; [contradiction | exact H].
    + apply GSsolveb_body_Ret_inv in H as [[Hn _]|[_ H]]; [contradiction | exact H].
  - apply NoDup_seqZ.
  - intros k. rewrite elem_of_seqZ. lia.
  - intros n. split; [apply NoDup_descZ | intros k; apply elem_of_descZ].
  - intros Hwd. apply GSsolve_returns; assumption.
Qed.

Lemma sweep_traversal_witness :
  2 <= Arma.n_rows [0; 0; 0]%float < uword_modulus /\
  GSsolve cubic1D [1; 1; 1]%float [0; 0; 0]%float 10 [0; 0; 0]%float eye3
    1e-6%float [0; 1; 2] =
  foldO (GSsolve_body cubic1D [1; 1; 1]%float [0; 0; 0]%float eye3 [0; 1; 2] 3)
    [1] [0; 0; 0]%float.
Proof.
  assert (2 <= Arma.n_rows [0; 0; 0]%float < uword_modulus) as HN
    by (split; reflexivity || discriminate).
  split; [exact HN|].
  exact (proj1 (sweep_traversal cubic1D [1; 1; 1]%float [0; 0; 0]%float 10
                  [0; 0; 0]%float eye3 1e-6%float [0; 1; 2] HN)).
Defined.

(** C5 (as stated, refuted): on three nodes that are all free, each with the
    scalar problem 1 + x = 0 whose Newton search from 0 returns -1, the
    forward sweep returns with node 1 at -1 and the free nodes 0 and 2 still
    at 0: they were not updated. *)
Lemma forward_sweep_skips_free_ends :
  GSsolve cubic1D [1; 1; 1]%float [0; 0; 0]%float 10 [0; 0; 0]%float eye3
    1e-6%float [0; 1; 2] = Ret [0; -1; 0]%float /\
  NWTsolve1D (cubic1D [1; 1; 0]%float) 0%float 1e-6%float 10 = Ret (-1)%float.
Proof. split; vm_compute; reflexivity. Qed.

(** C8 (as amended): NWTsolve1D has no guard on the derivative and no way to
    fail: it returns an iterate for every function, start, tolerance and
    iteration cap, and when |f(x0)| > tol and maxitr > 0 its first step is
    x0 - f(x0)/f'(x0) in IEEE arithmetic whatever f'(x0) is, zero included. *)
Theorem NWTsolve1D_unguarded (f : Fun1D) (x0 tol : double) (maxitr : uword) :
  is_uword maxitr ->
  (exists x, NWTsolve1D f x0 tol maxitr = Ret x) /\
  (PrimFloat.ltb tol (PrimFloat.abs (evalF1 f x0)) = true -> 0 < maxitr ->
   NWTsolve1D f x0 tol maxitr =
   NWTsolve1D_loop (Z.to_nat maxitr - 1) f tol maxitr
     (PrimFloat.sub x0 (PrimFloat.div (evalF1 f x0) (evalDF1 f x0)))
     (evalF1 f (PrimFloat.sub x0 (PrimFloat.div (evalF1 f x0) (evalDF1 f x0))))
     (evalDF1 f (PrimFloat.sub x0 (PrimFloat.div (evalF1 f x0) (evalDF1 f x0))))
     (PrimFloat.abs
        (evalF1 f (PrimFloat.sub x0 (PrimFloat.div (evalF1 f x0) (evalDF1 f x0)))))
     1).
Proof.
  intros Hm. split; [apply NWTsolve1D_returns; exact Hm|].
  intros Herr Hpos. unfold NWTsolve1D. cbv zeta.
  destruct (Z.to_nat maxitr) as [|k] eqn:E; [lia|].
  cbn [NWTsolve1D_loop]. rewrite Herr.
  destruct (Z.ltb_spec 0 maxitr); [|lia]. cbn [andb].
  replace (S k - 1)%nat with k by lia. reflexivity.
Qed.

Lemma NWTsolve1D_unguarded_witness :
  is_uword 10 /\
  PrimFloat.ltb 1e-6%float (PrimFloat.abs (evalF1 (cubic1D [1; 0; 1]%float) 0%float)) = true /\
  0 < 10 /\
  evalDF1 (cubic1D [1; 0; 1]%float) 0%float = 0%float /\
  NWTsolve1D (cubic1D [1; 0; 1]%float) 0%float 1e-6%float 10 =
  NWTsolve1D_loop 9 (cubic1D [1; 0; 1]%float) 1e-6%float 10
    neg_infinity nan infinity nan 1.
Proof.
  assert (is_uword 10) as Hm by (split; reflexivity || discriminate).
  assert (PrimFloat.ltb 1e-6%float
            (PrimFloat.abs (evalF1 (cubic1D [1; 0; 1]%float) 0%float)) = true) as Herr
    by reflexivity.
  assert (0 < 10) as Hpos by reflexivity.
  split; [exact Hm|]. split; [exact Herr|]. split; [exact Hpos|].
  split; [reflexivity|].
  exact (proj2 (NWTsolve1D_unguarded (cubic1D [1; 0; 1]%float) 0%float 1e-6%float 10 Hm)
           Herr Hpos).
Defined.

(** C8 (as stated, refuted): at x0 = 0 the scalar problem 1 + x^3 has the
    derivative 0 and the value 1; NWTsolve1D divides and returns minus
    infinity. *)
Lemma NWTsolve1D_divides_by_zero :
  evalDF1 (cubic1D [1; 0; 1]%float) 0%float = 0%float /\
  NWTsolve1D (cubic1D [1; 0; 1]%float) 0%float 1e-6%float 10 = Ret neg_infinity.
Proof. split; vm_compute; reflexivity. Qed.

(** C9 (refuted by the code): the constructor never reads its [fun]
    argument.  Whatever the name, a construction that returns holds the
    classes FunZeros, FunBoltz and FunSCNL; on the one-triangle mesh the name
    of no class ("NoSuchFunction") is accepted and construction returns, and
    the name "FunOnes" does not make FunOnes the source. *)
Theorem constructor_ignores_fun :
  (forall (fun_of : FunName -> Fun) (F : list double -> Fun1D)
          (MeshMG_refined : list double -> MeshMG) (fuelb : nat)
          (meshprops : list double) (fun_ : string) (obj : FiniteElemNL),
     FiniteElemNL_new fun_of F MeshMG_refined fuelb meshprops fun_ = Ret obj ->
     pde obj = FunZeros /\ bdfun obj = FunBoltz /\ pdenl obj = FunSCNL) /\
  (forall (fun_of : FunName -> Fun) (F : list double -> Fun1D)
          (MeshMG_refined : list double -> MeshMG) (fuelb : nat)
          (meshprops : list double) (fun1 fun2 : string),
     FiniteElemNL_new fun_of F MeshMG_refined fuelb meshprops fun1 =
     FiniteElemNL_new fun_of F MeshMG_refined fuelb meshprops fun2) /\
  FiniteElemNL_new ex_fun_of cubic1D (fun _ => ex_mesh) 3 [] "NoSuchFunction" =
    Ret {| pde := FunZeros; bdfun := FunBoltz; pdenl := FunSCNL;
           mesh := ex_mesh; u := [0; 0; 2]%float |} /\
  FiniteElemNL_new ex_fun_of cubic1D (fun _ => ex_mesh) 3 [] "FunOnes" =
    Ret {| pde := FunZeros; bdfun := FunBoltz; pdenl := FunSCNL;
           mesh := ex_mesh; u := [0; 0; 2]%float |}.
Proof.
  split; [|split; [|split]].
  - intros fun_of F MeshMG_refined fuelb meshprops fun_ obj H.
    unfold FiniteElemNL_new, choose_functions in H. cbn [bind] in H. cbv zeta in H.
    apply bind_Ret_inv in H as (b & _ & H).
    apply bind_Ret_inv in H as (u0 & _ & H).
    apply bind_Ret_inv in H as (rn & _ & H).
    apply bind_Ret_inv in H as (u' & _ & H).
    injection H as <-. auto.
  - reflexivity.
  - vm_compute. reflexivity.
  - vm_compute. reflexivity.
Qed.

Lemma foldO_writes_visited (body : uword -> list double -> outcome (list double)) :
  (forall i u u', body i u = Ret u' ->
     u' = u \/ exists x, u' = <[Z.to_nat i := x]> u) ->
  forall (l : list uword) (u u' : list double),
    foldO body l u = Ret u' ->
    length u' = length u /\
    forall j : nat, (forall i, i ∈ l -> Z.to_nat i <> j) -> u' !! j = u !! j.
Proof.
  intros Hbody l. induction l as [|i l IH]; intros u u' H; simpl in H.
  - injection H as <-. auto.
  - apply bind_Ret_inv in H as (v & Hv & H).
    destruct (IH v u' H) as [Hlen Hkeep].
    assert (length v = length u /\ forall j, Z.to_nat i <> j -> v !! j = u !! j) as [Hlv Hkv].
    { apply Hbody in Hv as [->|[x ->]]; [auto|].
      split; [apply length_insert|]. intros j Hj. apply list_lookup_insert_ne. exact Hj. }
    split; [congruence|]. intros j Hj.
    rewrite Hkeep by (intros k Hk; apply Hj; right; exact Hk).
    apply Hkv. apply Hj. left.
Qed.

(** *** Every pass of a sweep is one scalar search with 1e-6 and 10 *)





Section Passes.

Variable body : uword -> list double -> outcome (list double).
Hypothesis body_writes_own :
  forall i u u', body i u = Ret u' ->
    u' = u \/ exists x, u' = <[Z.to_nat i := x]> u.




End Passes.



(** A construction that returns: on the one-triangle mesh the start vector
    already solves the system on the free node, the loop is not entered, and
    the vector kept is the start vector with its boundary values. *)
Lemma construction_example :
  u <$> of_outcome (FiniteElemNL_new ex_fun_of cubic1D (fun _ => ex_mesh) 3 [] "FunSC")
  = Some [0; 0; 2]%float.
Proof. vm_compute. reflexivity. Qed.

(** ** Further properties of the code *)

(** *** Computations that come to an end *)

Lemma halts_Ret {A : Type} (a : A) : halts (Ret a).
Proof. discriminate. Qed.

Lemma halts_Throw {A : Type} : halts (@Throw A).
Proof. discriminate. Qed.

Lemma halts_bind {A B : Type} (m : outcome A) (k : A -> outcome B) :
  halts m -> (forall a, m = Ret a -> halts (k a)) -> halts (bind m k).
Proof.
  intros Hm Hk. destruct m as [a| |]; simpl.
  - apply Hk. reflexivity.
  - discriminate.
  - destruct Hm. reflexivity.
Qed.

Lemma halts_of_option {A : Type} (o : option A) : halts (of_option o).
Proof. destruct o; discriminate. Qed.

Lemma halts_mapO {A B : Type} (f : A -> outcome B) (l : list A) :
  (forall x, halts (f x)) -> halts (mapO f l).
Proof.
  intros Hf. induction l as [|a l IH]; simpl; [discriminate|].
  apply halts_bind; [apply Hf|]. intros b _.
  apply halts_bind; [exact IH|]. intros bs _. discriminate.
Qed.

Lemma halts_at {A : Type} (v : list A) (i : uword) : halts (Arma.at_ v i).
Proof. apply halts_of_option. Qed.

Lemma halts_set_at {A : Type} (v : list A) (i : uword) (x : A) :
  halts (Arma.set_at v i x).
Proof. unfold Arma.set_at. destruct (i <? Arma.n_rows v); discriminate. Qed.

Lemma halts_elem {A : Type} (v : list A) (q : uvec) : halts (Arma.elem v q).
Proof. apply halts_mapO. intros i. apply halts_at. Qed.

Lemma halts_zip_with_checked (f : double -> double -> double) (a b : vec) :
  halts (Arma.zip_with_checked f a b).
Proof.
  revert b. induction a as [|x a IH]; intros [|y b]; simpl; try discriminate.
  apply halts_bind; [apply IH|]. discriminate.
Qed.

Lemma halts_dot (r c : vec) : halts (Arma.dot r c).
Proof.
  unfold Arma.dot. apply halts_bind; [apply halts_zip_with_checked|]. discriminate.
Qed.

Lemma halts_mat_add (m1 m2 : mat) : halts (ArmaMat.add m1 m2).
Proof.
  revert m2. induction m1 as [|r1 m1 IH]; intros [|r2 m2]; simpl; try discriminate.
  apply halts_bind; [apply halts_zip_with_checked|]. intros r _.
  apply halts_bind; [apply IH|]. discriminate.
Qed.

Lemma halts_set_elem (q : uvec) : forall (v x : vec), halts (Arma.set_elem v q x).
Proof.
  induction q as [|i q IH]; intros v [|y x]; simpl; try discriminate.
  apply halts_bind; [apply halts_set_at|]. intros v' _. apply IH.
Qed.

Lemma halts_residual_norm (A : mat) (u M fu b : vec) (freeNode : uvec) :
  halts (residual_norm A u M fu b freeNode).
Proof.
  unfold residual_norm, residual.
  repeat (apply halts_bind; [|intros ? _]);
    try apply halts_zip_with_checked; try apply halts_elem; try discriminate.
  apply halts_mapO. intros r. apply halts_dot.
Qed.

Lemma halts_cases {A : Type} (m : outcome A) :
  halts m -> m = Throw \/ exists a, m = Ret a.
Proof. destruct m as [a| |]; intros H; [eauto | auto | destruct H; reflexivity]. Qed.

(** A loop over a list raises as soon as one of its passes raises, when no
    pass runs out of fuel. *)
Lemma foldO_Throw {I S : Type} (body : I -> S -> outcome S) (i0 : I) (l : list I) :
  (forall i s, halts (body i s)) -> i0 ∈ l -> (forall s, body i0 s = Throw) ->
  forall s, foldO body l s = Throw.
Proof.
  intros Hh Hin Hthrow. induction l as [|i l IH]; intros s.
  - apply elem_of_nil in Hin. destruct Hin.
  - simpl. apply elem_of_cons in Hin as [<-|Hin].
    + rewrite Hthrow. reflexivity.
    + destruct (halts_cases _ (Hh i s)) as [->|[s' ->]]; simpl; auto.
Qed.

Lemma mapO_Throw {A B : Type} (f : A -> outcome B) (x0 : A) (l : list A) :
  (forall x, halts (f x)) -> x0 ∈ l -> f x0 = Throw -> mapO f l = Throw.
Proof.
  intros Hh Hin Hthrow. induction l as [|a l IH].
  - apply elem_of_nil in Hin. destruct Hin.
  - simpl. apply elem_of_cons in Hin as [<-|Hin].
    + rewrite Hthrow. reflexivity.
    + destruct (halts_cases _ (Hh a)) as [->|[b ->]]; simpl; auto.
      rewrite IH by exact Hin. reflexivity.
Qed.

Lemma mapO_ext {A B : Type} (f g : A -> outcome B) (l : list A) :
  (forall x, x ∈ l -> f x = g x) -> mapO f l = mapO g l.
Proof.
  induction l as [|a l IH]; intros H; simpl; [reflexivity|].
  rewrite H by left. rewrite IH; [reflexivity|].
  intros x Hx. apply H. right. exact Hx.
Qed.

Lemma for_up_ext {S : Type} (body1 body2 : uword -> S -> outcome S) (hi : uword) :
  (forall i s, body1 i s = body2 i s) ->
  forall (fuel : nat) (i : uword) (s : S),
    for_up fuel hi body1 i s = for_up fuel hi body2 i s.
Proof.
  intros H fuel. induction fuel as [|fuel IH]; intros i s; simpl; [reflexivity|].
  destruct (i <? hi); [|reflexivity]. rewrite H.
  destruct (body2 i s); simpl; auto.
Qed.

(** *** accumArray: keys out of range, arrays of different lengths *)

Lemma elem_of_find_eq_from (s : uvec) (i : uword) :
  forall (k p : uword),
    p ∈ Arma.find_eq_from k s i <->
    k <= p /\ s !! Z.to_nat (p - k) = Some i.
Proof.
  induction s as [|x s IH]; intros k p; simpl.
  - rewrite elem_of_nil. split; [tauto|]. intros [_ H]. discriminate.
  - assert (k < p -> s !! Z.to_nat (p - (k + 1)) = (x :: s) !! Z.to_nat (p - k)) as Hshift.
    { intros Hlt. replace (Z.to_nat (p - k)) with (S (Z.to_nat (p - (k + 1)))) by lia.
      reflexivity. }
    destruct (Z.eqb_spec x i) as [->|Hne].
    + rewrite elem_of_cons, IH. split.
      * intros [->|[Hk Hs]].
        -- split; [lia|]. rewrite Z.sub_diag. reflexivity.
        -- split; [lia|]. rewrite <- Hshift by lia. exact Hs.
      * intros [Hk Hs]. destruct (Z.eq_dec p k) as [->|Hpk]; [left; reflexivity|].
        right. split; [lia|]. rewrite Hshift by lia. exact Hs.
    + rewrite IH. split.
      * intros [Hk Hs]. split; [lia|]. rewrite <- Hshift by lia. exact Hs.
      * intros [Hk Hs]. destruct (Z.eq_dec p k) as [->|Hpk].
        -- rewrite Z.sub_diag in Hs. simpl in Hs. congruence.
        -- split; [lia|]. rewrite Hshift by lia. exact Hs.
Qed.

Lemma elem_of_find_eq (s : uvec) (i p : uword) :
  p ∈ Arma.find_eq s i <-> 0 <= p /\ s !! Z.to_nat p = Some i.
Proof.
  unfold Arma.find_eq. rewrite elem_of_find_eq_from, Z.sub_0_r. reflexivity.
Qed.

Lemma halts_accumArray_body (subs : uvec) (ar : vec) (i : uword) (S : vec) :
  halts (accumArray_body subs ar i S).
Proof.
  unfold accumArray_body.
  destruct (negb (Arma.is_empty (Arma.find_eq subs i))); [|apply halts_set_at].
  apply halts_bind; [apply halts_elem|]. intros spot _. apply halts_set_at.
Qed.

Lemma sum_by_key_in_range (keys : uvec) (values : vec) (N i : uword) :
  0 <= i < N ->
  sum_by_key (in_range_pairs keys values N).*1 (in_range_pairs keys values N).*2 i =
  sum_by_key keys values i.
Proof.
  intros Hi. unfold sum_by_key, in_range_pairs. rewrite zip_fst_snd.
  rewrite list_filter_filter. do 2 f_equal.
  apply list_filter_iff. intros [k v]. simpl. split; [tauto|]. intros ->. auto.
Qed.

(** X1: keys outside [0, N) are dropped without notice: the result is the one
    of the pairs whose key is in range. *)
Theorem accumArray_out_of_range_keys (keys : uvec) (values : vec) (N : uword) :
  is_uword N -> length keys = length values ->
  accumArray keys values N =
  accumArray (in_range_pairs keys values N).*1 (in_range_pairs keys values N).*2 N.
Proof.
  intros HN Hlen.
  destruct (accumArray_Ret keys values N HN Hlen) as (S & -> & HS & Hi).
  destruct (accumArray_Ret (in_range_pairs keys values N).*1
              (in_range_pairs keys values N).*2 N HN) as (S' & -> & HS' & Hi').
  { rewrite !length_fmap. reflexivity. }
  f_equal. apply list_eq. intros j.
  destruct (decide (Z.of_nat j < N)) as [Hj|Hj].
  - specialize (Hi (Z.of_nat j) ltac:(lia)) as [Hi _].
    specialize (Hi' (Z.of_nat j) ltac:(lia)) as [Hi' _].
    rewrite Nat2Z.id in Hi, Hi'. rewrite Hi, Hi'. f_equal. symmetry.
    apply sum_by_key_in_range. lia.
  - unfold Arma.n_rows in HS, HS'.
    rewrite (lookup_ge_None_2 S), (lookup_ge_None_2 S') by lia. reflexivity.
Qed.

Lemma accumArray_out_of_range_keys_witness :
  is_uword 2 /\ length [0; 7; 1; 5] = length [1; 2; 3; 4]%float /\
  accumArray [0; 7; 1; 5] [1; 2; 3; 4]%float 2 = accumArray [0; 1] [1; 3]%float 2.
Proof.
  assert (is_uword 2) as HN by (split; reflexivity || discriminate).
  assert (length [0; 7; 1; 5] = length [1; 2; 3; 4]%float) as Hlen by reflexivity.
  split; [exact HN|]. split; [exact Hlen|].
  exact (accumArray_out_of_range_keys [0; 7; 1; 5] [1; 2; 3; 4]%float 2 HN Hlen).
Defined.

(** X2: a key in range whose position has no value makes accumArray raise
    (the bounds check of [ar.elem]). *)
Theorem accumArray_missing_value (keys : uvec) (values : vec) (N : uword)
    (p : nat) (k : uword) :
  is_uword N -> keys !! p = Some k -> 0 <= k < N -> (length values <= p)%nat ->
  accumArray keys values N = Throw.
Proof.
  intros [HN0 HN] Hp Hk Hshort. unfold accumArray.
  rewrite for_up_foldO by lia. rewrite Z.sub_0_r.
  apply (foldO_Throw _ k).
  - intros i s. apply halts_accumArray_body.
  - apply elem_of_seqZ. lia.
  - intros s. unfold accumArray_body.
    assert (Z.of_nat p ∈ Arma.find_eq keys k) as Hin.
    { apply elem_of_find_eq. rewrite Nat2Z.id. split; [lia | exact Hp]. }
    destruct (Arma.find_eq keys k) as [|q qs] eqn:E.
    { apply elem_of_nil in Hin. destruct Hin. }
    cbn [Arma.is_empty negb]. rewrite <- E in Hin |- *.
    unfold Arma.elem. rewrite (mapO_Throw _ (Z.of_nat p)); [reflexivity | | exact Hin |].
    + intros x. apply halts_at.
    + unfold Arma.at_. rewrite Nat2Z.id.
      rewrite lookup_ge_None_2 by lia. reflexivity.
Qed.

Lemma accumArray_missing_value_witness :
  is_uword 3 /\ [0; 2; 1] !! 2%nat = Some 1 /\ 0 <= 1 < 3 /\
  (length [5; 6]%float <= 2)%nat /\
  accumArray [0; 2; 1] [5; 6]%float 3 = Throw.
Proof.
  assert (is_uword 3) as HN by (split; reflexivity || discriminate).
  assert ([0; 2; 1] !! 2%nat = Some 1) as Hp by reflexivity.
  assert (0 <= 1 < 3) as Hk by lia.
  assert (length [5; 6]%float <= 2)%nat as Hs by (simpl; lia).
  repeat (split; [assumption|]).
  exact (accumArray_missing_value [0; 2; 1] [5; 6]%float 3 2 1 HN Hp Hk Hs).
Defined.

(** X3: accumArray reads a value only at the position of a key: values past
    the last key play no part. *)
Theorem accumArray_reads_key_positions (keys : uvec) (values : vec) (N : uword) :
  accumArray keys values N = accumArray keys (take (length keys) values) N.
Proof.
  unfold accumArray. apply for_up_ext. intros i S. unfold accumArray_body.
  assert (Arma.elem values (Arma.find_eq keys i) =
          Arma.elem (take (length keys) values) (Arma.find_eq keys i)) as ->;
    [|reflexivity].
  apply mapO_ext. intros p Hp. apply elem_of_find_eq in Hp as [Hp0 Hp].
  apply lookup_lt_Some in Hp. unfold Arma.at_.
  rewrite lookup_take_lt by exact Hp. reflexivity.
Qed.

(** *** NWTsolve1D: which iterate comes back *)

Lemma NWTsolve1D_loop_iterate (f : Fun1D) (tol : double) (maxitr : uword) :
  maxitr < uword_modulus ->
  forall (fuel : nat) (x : double) (n : uword),
    0 <= n <= maxitr -> maxitr - n <= Z.of_nat fuel ->
    exists k : nat,
      n + Z.of_nat k <= maxitr /\
      NWTsolve1D_loop fuel f tol maxitr x (evalF1 f x) (evalDF1 f x)
        (PrimFloat.abs (evalF1 f x)) n = Ret (newton_iterate f k x) /\
      (forall k' : nat, (k' < k)%nat -> above_tol f tol (newton_iterate f k' x) = true) /\
      (n + Z.of_nat k = maxitr \/ above_tol f tol (newton_iterate f k x) = false).
Proof.
  intros Hm fuel. induction fuel as [|fuel IH]; intros x n Hn Hfuel.
  - exists 0%nat. cbn [NWTsolve1D_loop].
    destruct (Z.ltb_spec n maxitr); [lia|]. rewrite andb_false_r.
    repeat split; [lia | | left; lia]. intros k' Hk'. lia.
  - cbn [NWTsolve1D_loop]. fold (above_tol f tol x).
    destruct (above_tol f tol x) eqn:Ex; cbn [andb].
    + destruct (Z.ltb_spec n maxitr) as [Hlt|Hge].
      * rewrite wrap_small by (unfold is_uword; lia).
        destruct (IH (newton_step f x) (n + 1)) as (k & Hk & Hrun & Hbefore & Hstop);
          [lia | lia |].
        exists (S k). unfold newton_iterate in *. rewrite !Nat.iter_succ_r.
        split; [lia|]. split; [exact Hrun|]. split.
        -- intros [|k'] Hk'; [exact Ex|]. rewrite Nat.iter_succ_r. apply Hbefore. lia.
        -- destruct Hstop as [Hstop|Hstop]; [left; lia | right; exact Hstop].
      * exists 0%nat. repeat split; [lia | | left; lia]. intros k' Hk'. lia.
    + exists 0%nat. repeat split; [lia | | right; exact Ex]. intros k' Hk'. lia.
Qed.

(** X4: NWTsolve1D returns the first Newton iterate x_k whose residual is not
    above the tolerance, or x_maxitr when all of x_0 .. x_(maxitr-1) are above
    it; nothing tells the two cases apart in what it returns. *)
Theorem NWTsolve1D_first_iterate (f : Fun1D) (x0 tol : double) (maxitr : uword) :
  is_uword maxitr ->
  exists k : nat,
    Z.of_nat k <= maxitr /\
    NWTsolve1D f x0 tol maxitr = Ret (newton_iterate f k x0) /\
    (forall k' : nat, (k' < k)%nat -> above_tol f tol (newton_iterate f k' x0) = true) /\
    (Z.of_nat k = maxitr \/ above_tol f tol (newton_iterate f k x0) = false).
Proof.
  intros [H0 Hm]. unfold NWTsolve1D. cbv zeta.
  destruct (NWTsolve1D_loop_iterate f tol maxitr Hm (Z.to_nat maxitr) x0 0)
    as (k & Hk & Hrun & Hbefore & Hstop); [lia | lia |].
  exists k. rewrite Z.add_0_l in Hk, Hstop. auto.
Qed.

Lemma NWTsolve1D_first_iterate_witness :
  is_uword 10 /\
  exists k : nat,
    Z.of_nat k <= 10 /\
    NWTsolve1D (cubic1D [-2; 0; 1]%float) 1%float 1e-6%float 10 =
      Ret (newton_iterate (cubic1D [-2; 0; 1]%float) k 1%float) /\
    (forall k' : nat, (k' < k)%nat ->
       above_tol (cubic1D [-2; 0; 1]%float) 1e-6%float
         (newton_iterate (cubic1D [-2; 0; 1]%float) k' 1%float) = true) /\
    (Z.of_nat k = 10 \/
     above_tol (cubic1D [-2; 0; 1]%float) 1e-6%float
       (newton_iterate (cubic1D [-2; 0; 1]%float) k 1%float) = false).
Proof.
  assert (is_uword 10) as Hm by (split; reflexivity || discriminate).
  split; [exact Hm|].
  exact (NWTsolve1D_first_iterate (cubic1D [-2; 0; 1]%float) 1%float 1e-6%float 10 Hm).
Defined.

(** *** The forward sweep: what it can change *)

(** X5: whatever the free set, a forward sweep that returns has kept the
    length of u, its first entry, its last entry and every entry whose index
    is not free. *)
Theorem GSsolve_keeps_ends (F : list double -> Fun1D) (b u : vec) (maxitr : uword)
    (M : vec) (A : mat) (tol : double) (freeNode : uvec) (u' : vec) :
  GSsolve F b u maxitr M A tol freeNode = Ret u' ->
  length u' = length u /\
  u' !! 0%nat = u !! 0%nat /\
  u' !! (length u - 1)%nat = u !! (length u - 1)%nat /\
  forall j : uword, 0 <= j -> (j ∉ freeNode) -> u' !! Z.to_nat j = u !! Z.to_nat j.
Proof.
  intros H. pose proof H as Hfold. rewrite GSsolve_foldO in Hfold.
  apply foldO_writes_visited in Hfold as [Hlen Hkeep].
  - assert (wrap (Arma.n_rows u - 1) <= Arma.n_rows u - 1 \/ Arma.n_rows u = 0) as Hw.
    { unfold Arma.n_rows. destruct u as [|x u]; [right; reflexivity|]. left.
      unfold wrap. apply Z.mod_le; [simpl length; lia|].
      unfold uword_modulus, uword_bits. lia. }
    split; [exact Hlen|]. split; [|split].
    + apply Hkeep. intros i Hi. apply elem_of_seqZ in Hi. lia.
    + destruct Hw as [Hw|Hw].
      * apply Hkeep. intros i Hi. apply elem_of_seqZ in Hi.
        unfold Arma.n_rows in *. lia.
      * unfold Arma.n_rows in Hw. destruct u; [|discriminate].
        destruct u'; [reflexivity | discriminate].
    + intros j Hj Hjf. eapply GSsolve_frozen; eauto.
  - intros i v v' Hb. apply GSsolve_body_Ret_inv in Hb as [[_ ->]|[_ Hb]]; auto.
Qed.

Lemma GSsolve_keeps_ends_witness :
  GSsolve cubic1D [1; 1; 1]%float [4; 0; 7]%float 10 [0; 0; 0]%float eye3
    1e-6%float [0; 1; 2] = Ret [4; -1; 7]%float /\
  length [4; -1; 7]%float = length [4; 0; 7]%float /\
  [4; -1; 7]%float !! 0%nat = [4; 0; 7]%float !! 0%nat /\
  [4; -1; 7]%float !! (length [4; 0; 7]%float - 1)%nat =
    [4; 0; 7]%float !! (length [4; 0; 7]%float - 1)%nat.
Proof.
  assert (GSsolve cubic1D [1; 1; 1]%float [4; 0; 7]%float 10 [0; 0; 0]%float eye3
            1e-6%float [0; 1; 2] = Ret [4; -1; 7]%float) as H
    by (vm_compute; reflexivity).
  destruct (GSsolve_keeps_ends _ _ _ _ _ _ _ _ _ H) as (H1 & H2 & H3 & _).
  auto.
Defined.

(** X6: when no free index lies strictly between 0 and N-1 (in particular
    when N is 1 or 2) the forward sweep returns u as it is, reading neither
    b, M nor A. *)
Theorem GSsolve_nothing_to_do (F : list double -> Fun1D) (b u : vec)
    (maxitr : uword) (M : vec) (A : mat) (tol : double) (freeNode : uvec) :
  1 <= Arma.n_rows u ->
  (forall i, i ∈ freeNode -> i <= 0 \/ Arma.n_rows u - 1 <= i) ->
  GSsolve F b u maxitr M A tol freeNode = Ret u.
Proof.
  intros HN Hfree. rewrite GSsolve_foldO.
  assert (wrap (Arma.n_rows u - 1) <= Arma.n_rows u - 1) as Hw.
  { unfold wrap. apply Z.mod_le; [lia|]. unfold uword_modulus, uword_bits. lia. }
  assert (forall l : list uword, (forall i, i ∈ l -> (i ∉ freeNode)) ->
            foldO (GSsolve_body F b M A freeNode (Arma.n_rows u)) l u = Ret u) as Hskip.
  { induction l as [|i l IH]; intros Hl; simpl; [reflexivity|].
    rewrite GSsolve_body_skip by (apply Hl; left). simpl.
    apply IH. intros k Hk. apply Hl. right. exact Hk. }
  apply Hskip. intros i Hi Hif. apply elem_of_seqZ in Hi. apply Hfree in Hif. lia.
Qed.

Lemma GSsolve_nothing_to_do_witness :
  1 <= Arma.n_rows [3; 4]%float /\
  (forall i, i ∈ [0; 1] -> i <= 0 \/ Arma.n_rows [3; 4]%float - 1 <= i) /\
  GSsolve cubic1D [] [3; 4]%float 10 [] [] 1e-6%float [0; 1] = Ret [3; 4]%float.
Proof.
  assert (1 <= Arma.n_rows [3; 4]%float) as HN by (vm_compute; discriminate).
  assert (forall i, i ∈ [0; 1] -> i <= 0 \/ Arma.n_rows [3; 4]%float - 1 <= i) as Hf.
  { intros i Hi. apply elem_of_cons in Hi as [->|Hi]; [left; lia|].
    apply list_elem_of_singleton in Hi. subst. right. vm_compute. discriminate. }
  split; [exact HN|]. split; [exact Hf|].
  exact (GSsolve_nothing_to_do cubic1D [] [3; 4]%float 10 [] [] 1e-6%float [0; 1] HN Hf).
Defined.

(** *** The backward sweep with node 0 free *)

Lemma GSsolveb_body_Ret_inner (F : list double -> Fun1D) (N : Z) (b u M : vec)
    (A : mat) (freeNode : uvec) (i : uword) :
  N < uword_modulus -> well_dimensioned N b u M A -> 1 <= i <= N - 1 ->
  exists u', GSsolveb_body F b M A freeNode N i u = Ret u' /\
             well_dimensioned N b u' M A.
Proof.
  intros HN Hwd Hi.
  destruct (decide (i ∈ freeNode)) as [Hf|Hf].
  - unfold GSsolveb_body. apply find_eq_nonempty in Hf. rewrite Hf.
    destruct Hwd as (Hu & Hb & HM & HA & HAr).
    destruct (at_Ret A i) as (Ar & -> & HAi); [lia|]. cbn [bind].
    assert (Arma.n_rows Ar = N) as HArN.
    { rewrite Forall_forall in HAr. apply HAr. eapply list_elem_of_lookup_2, HAi. }
    rewrite (GSsolveb_currA_Ret N) by (auto; lia). cbn [bind].
    edestruct (node_update_Ret F N b u M A i) as [x ->]; [repeat split; eauto | lia |].
    eexists. split; [reflexivity|].
    repeat split; auto. rewrite <- Hu. unfold Arma.n_rows. f_equal. apply length_insert.
  - exists u. split; [apply GSsolveb_body_skip; exact Hf | exact Hwd].
Qed.

Lemma GSsolveb_body_throws_at_0 (F : list double -> Fun1D) (N : Z) (b u M : vec)
    (A : mat) (freeNode : uvec) :
  1 <= N < uword_modulus -> well_dimensioned N b u M A -> 0 ∈ freeNode ->
  GSsolveb_body F b M A freeNode N 0 u = Throw.
Proof.
  intros HN (Hu & Hb & HM & HA & HAr) Hf. unfold GSsolveb_body.
  apply find_eq_nonempty in Hf. rewrite Hf.
  destruct (at_Ret A 0) as (Ar & -> & HAi); [lia|]. cbn [bind].
  assert (Arma.n_rows Ar = N) as HArN.
  { rewrite Forall_forall in HAr. apply HAr. eapply list_elem_of_lookup_2, HAi. }
  unfold GSsolveb_currA, Arma.span at 1.
  assert (wrap (0 - 1) = uword_modulus - 1) as -> by reflexivity.
  destruct (Z.ltb_spec (uword_modulus - 1) 0) as [Hlt|_]; [reflexivity|].
  destruct (Z.leb_spec (Arma.n_rows Ar) (uword_modulus - 1)); [reflexivity | lia].
Qed.

Lemma GSsolveb_loop_throws (F : list double -> Fun1D) (N : Z) (b M : vec) (A : mat)
    (freeNode : uvec) :
  1 <= N < uword_modulus -> 0 ∈ freeNode ->
  forall (k fuel : nat) (u : vec),
    Z.of_nat k <= N - 1 -> (k < fuel)%nat -> well_dimensioned N b u M A ->
    for_down fuel (GSsolveb_body F b M A freeNode N) (Z.of_nat k) u = Throw.
Proof.
  intros HN Hf k. induction k as [|k IH]; intros fuel u Hk Hfuel Hwd;
    (destruct fuel as [|fuel]; [lia|]); cbn [for_down].
  - change (Z.of_nat 0) with 0. cbn [Z.leb Z.compare].
    rewrite (GSsolveb_body_throws_at_0 F N) by assumption. reflexivity.
  - destruct (Z.leb_spec 0 (Z.of_nat (S k))); [|lia].
    destruct (GSsolveb_body_Ret_inner F N b u M A freeNode (Z.of_nat (S k)))
      as (u' & -> & Hwd'); [lia | exact Hwd | lia |].
    cbn [bind]. rewrite wrap_small by (unfold is_uword; lia).
    replace (Z.of_nat (S k) - 1) with (Z.of_nat k) by lia.
    apply IH; [lia | lia | exact Hwd'].
Qed.

(** X7: on a system of the right sizes with at least two nodes and node 0
    free, the backward sweep raises: its pass at index 0 asks Armadillo for
    the columns span(0, i-1) with i-1 wrapped round (given at least N-1 passes
    to get there). *)
Theorem GSsolveb_free_node_0_raises (F : list double -> Fun1D) (fuel : nat)
    (b u : vec) (maxitr : uword) (M : vec) (A : mat) (tol : double)
    (freeNode : uvec) :
  2 <= Arma.n_rows u < uword_modulus ->
  well_dimensioned (Arma.n_rows u) b u M A ->
  0 ∈ freeNode -> Arma.n_rows u - 1 <= Z.of_nat fuel ->
  GSsolveb F fuel b u maxitr M A tol freeNode = Throw.
Proof.
  intros HN Hwd Hf Hfuel. unfold GSsolveb. cbv zeta.
  rewrite wrap_small by (unfold is_uword; lia).
  replace (Arma.n_rows u - 2) with (Z.of_nat (Z.to_nat (Arma.n_rows u - 2))) by lia.
  apply (GSsolveb_loop_throws F (Arma.n_rows u)); auto; lia.
Qed.

Lemma GSsolveb_free_node_0_raises_witness :
  2 <= Arma.n_rows [0; 0; 0]%float < uword_modulus /\
  well_dimensioned (Arma.n_rows [0; 0; 0]%float) [1; 1; 1]%float [0; 0; 0]%float
    [0; 0; 0]%float eye3 /\
  0 ∈ [0; 1] /\ Arma.n_rows [0; 0; 0]%float - 1 <= Z.of_nat 2 /\
  GSsolveb cubic1D 2 [1; 1; 1]%float [0; 0; 0]%float 10 [0; 0; 0]%float eye3
    1e-6%float [0; 1] = Throw.
Proof.
  assert (2 <= Arma.n_rows [0; 0; 0]%float < uword_modulus) as HN
    by (split; reflexivity || discriminate).
  assert (well_dimensioned (Arma.n_rows [0; 0; 0]%float) [1; 1; 1]%float
            [0; 0; 0]%float [0; 0; 0]%float eye3) as Hwd
    by (repeat split; try reflexivity; repeat constructor).
  assert (0 ∈ [0; 1]) as Hf by left.
  assert (Arma.n_rows [0; 0; 0]%float - 1 <= Z.of_nat 2) as Hfuel
    by (vm_compute; discriminate).
  repeat (split; [assumption|]).
  exact (GSsolveb_free_node_0_raises cubic1D 2 [1; 1; 1]%float [0; 0; 0]%float 10
           [0; 0; 0]%float eye3 1e-6%float [0; 1] HN Hwd Hf Hfuel).
Defined.

(** *** The global Newton solve comes to an end *)

Lemma set_elem_length (q : uvec) :
  forall (v x v' : vec), Arma.set_elem v q x = Ret v' -> length v' = length v.
Proof.
  induction q as [|i q IH]; intros v [|y x] v' H; simpl in H; try discriminate.
  - injection H as <-. reflexivity.
  - apply bind_Ret_inv in H as (w & Hw & H).
    apply set_at_Ret_inv in Hw as [_ ->].
    rewrite (IH _ _ _ H). apply length_insert.
Qed.

Section GlobalNewtonEnds.

Variable fun_of : FunName -> Fun.
Variable solve : list (list double) -> list double -> outcome (list double).
Variable self : FiniteElemNL.
Hypothesis solve_halts : forall B r, halts (solve B r).

Lemma halts_NWTsolve_step (b M : vec) (A : mat) (freeNode : uvec) (u r : vec) :
  halts (NWTsolve_step fun_of solve self b M A freeNode u r).
Proof.
  unfold NWTsolve_step. cbv zeta.
  apply halts_bind; [apply halts_zip_with_checked|]. intros Df _.
  apply halts_bind; [apply halts_mat_add|]. intros B _.
  apply halts_bind.
  { unfold ArmaMat.submat. apply halts_bind; [apply halts_elem|]. intros rows _.
    apply halts_mapO. intros row. apply halts_elem. }
  intros Bff _.
  apply halts_bind; [apply solve_halts|]. intros e _.
  apply halts_bind; [apply halts_elem|]. intros uf _.
  apply halts_bind; [apply halts_zip_with_checked|]. intros d _.
  apply halts_bind; [apply halts_set_elem|]. intros w _.
  apply halts_bind; [apply halts_residual_norm|]. intros rn _. discriminate.
Qed.

Lemma NWTsolve_step_length (b M : vec) (A : mat) (freeNode : uvec) (u r u' r' : vec)
    (err : double) :
  NWTsolve_step fun_of solve self b M A freeNode u r = Ret (u', r', err) ->
  length u' = length u.
Proof.
  intros H. unfold NWTsolve_step in H. cbv zeta in H.
  apply bind_Ret_inv in H as (Df & _ & H).
  apply bind_Ret_inv in H as (B & _ & H).
  apply bind_Ret_inv in H as (Bff & _ & H).
  apply bind_Ret_inv in H as (e & _ & H).
  apply bind_Ret_inv in H as (uf & _ & H).
  apply bind_Ret_inv in H as (d & _ & H).
  apply bind_Ret_inv in H as (w & Hw & H).
  apply bind_Ret_inv in H as (rn & _ & H).
  injection H as <- _ _. apply (set_elem_length _ _ _ _ Hw).
Qed.

Lemma NWTsolve_loop_ends (b M : vec) (A : mat) (freeNode : uvec) (maxitr : uword)
    (tol : double) :
  maxitr < uword_modulus ->
  forall (fuel : nat) (u r : vec) (err : double) (k : uword),
    0 <= k -> maxitr - k <= Z.of_nat fuel ->
    halts (NWTsolve_loop fun_of solve fuel self b M A freeNode maxitr tol u r err k) /\
    forall u',
      NWTsolve_loop fun_of solve fuel self b M A freeNode maxitr tol u r err k = Ret u' ->
      length u' = length u.
Proof.
  intros Hm fuel. induction fuel as [|fuel IH]; intros u r err k Hk Hfuel;
    cbn [NWTsolve_loop].
  - destruct (Z.ltb_spec k maxitr); [lia|]. cbn [andb].
    split; [discriminate|]. intros u' [= <-]. reflexivity.
  - destruct ((k <? maxitr) && PrimFloat.ltb tol err) eqn:E.
    + apply andb_true_iff in E as [E _]. apply Z.ltb_lt in E.
      pose proof (halts_NWTsolve_step b M A freeNode u r) as Hstep.
      destruct (NWTsolve_step fun_of solve self b M A freeNode u r)
        as [[[v r'] err']| |] eqn:Es; cbn [bind].
      * rewrite wrap_small by (unfold is_uword; lia).
        destruct (IH v r' err' (k + 1)) as [Hh Hl]; [lia | lia |].
        split; [exact Hh|]. intros u' Hu'. rewrite (Hl u' Hu').
        apply (NWTsolve_step_length _ _ _ _ _ _ _ _ _ Es).
      * split; [discriminate|]. discriminate.
      * destruct Hstep. reflexivity.
    + split; [discriminate|]. intros u' [= <-]. reflexivity.
Qed.

End GlobalNewtonEnds.

(** X8: NWTsolve makes at most maxitr corrections: when Armadillo's solve
    comes to an end so does NWTsolve, by raising or by returning a vector of
    the length of u. *)
Theorem NWTsolve_comes_to_an_end (fun_of : FunName -> Fun)
    (solve : list (list double) -> list double -> outcome (list double))
    (self : FiniteElemNL) (b u : vec) (maxitr : uword) (M : vec) (A : mat)
    (tol : double) (freeNode : uvec) :
  is_uword maxitr -> (forall B r, halts (solve B r)) ->
  NWTsolve fun_of solve self b u maxitr M A tol freeNode = Throw \/
  exists u', NWTsolve fun_of solve self b u maxitr M A tol freeNode = Ret u' /\
             length u' = length u.
Proof.
  intros [Hm0 Hm] Hsolve. unfold NWTsolve. cbv zeta.
  pose proof (halts_residual_norm A u M
                (evalF (fun_of (pdenl self)) (as_mat u)) b freeNode) as Hrn.
  destruct (residual_norm A u M (evalF (fun_of (pdenl self)) (as_mat u)) b freeNode)
    as [rn| |]; cbn [bind]; [|auto|destruct Hrn; reflexivity].
  match goal with |- ?m = Throw \/ _ => destruct m as [u'| |] eqn:E end.
  - right. exists u'. split; [reflexivity|].
    eapply (NWTsolve_loop_ends fun_of solve self Hsolve); [exact Hm | | | exact E]; lia.
  - auto.
  - exfalso.
    eapply (NWTsolve_loop_ends fun_of solve self Hsolve); [exact Hm | | | exact E]; lia.
Qed.

Lemma NWTsolve_comes_to_an_end_witness :
  is_uword 10 /\
  (forall (B : list (list double)) (r : list double), halts (Ret r)) /\
  (NWTsolve ex_fun_of (fun _ r => Ret r) ex_self [1; 1; 1]%float [0; 0; 2]%float 10
     [0; 0; 0]%float eye3 1e-6%float [1] = Throw \/
   exists u',
     NWTsolve ex_fun_of (fun _ r => Ret r) ex_self [1; 1; 1]%float [0; 0; 2]%float 10
       [0; 0; 0]%float eye3 1e-6%float [1] = Ret u' /\
     length u' = length [0; 0; 2]%float).
Proof.
  assert (is_uword 10) as Hm by (split; reflexivity || discriminate).
  assert (forall (B : list (list double)) (r : list double), halts (Ret r)) as Hs
    by (intros B r; apply halts_Ret).
  split; [exact Hm|]. split; [exact Hs|].
  exact (NWTsolve_comes_to_an_end ex_fun_of (fun _ r => Ret r) ex_self [1; 1; 1]%float
           [0; 0; 2]%float 10 [0; 0; 0]%float eye3 1e-6%float [1] Hm Hs).
Defined.

(** *** The constructor *)

Lemma Driver_loop_Ret_inv (F : list double -> Fun1D) (fuel fuelb : nat) (b Mv : vec)
    (A : mat) (freeNode : uvec) (fu : vec) (tol : double) (u : vec) (err : double)
    (k : uword) (u' : vec) :
  Driver_loop F fuel fuelb b Mv A freeNode fu tol u err k = Ret u' ->
  u' = u /\ (k <? 10) && PrimFloat.ltb tol err = false.
Proof.
  destruct fuel as [|fuel]; cbn [Driver_loop];
    destruct ((k <? 10) && PrimFloat.ltb tol err); try discriminate.
  - intros [= <-]. auto.
  - destruct (Driver_iteration_no_return F fuelb b Mv A freeNode fu u) as [-> | ->];
      discriminate.
  - intros [= <-]. auto.
Qed.

(** X9: a construction that returns has run no sweep: the loop test failed
    before the first pass (the start residual on the free nodes is not above
    the scaled tolerance), the vector kept is the start vector (zero, with the
    boundary values written in), and the mesh kept is the refined mesh. *)
Theorem construction_returns_start_vector (fun_of : FunName -> Fun)
    (F : list double -> Fun1D) (MeshMG_refined : list double -> MeshMG)
    (fuelb : nat) (meshprops : list double) (fun_ : string) (obj : FiniteElemNL) :
  FiniteElemNL_new fun_of F MeshMG_refined fuelb meshprops fun_ = Ret obj ->
  mesh obj = MeshMG_refined meshprops /\
  initial_u (fun_of (bdfun obj)) (mesh obj) = Ret (u obj) /\
  exists b rn,
    calcRHS fun_of obj = Ret b /\
    residual_norm (stiffness (mesh obj)) (u obj) (Arma.diag (mass (mesh obj)))
      (evalF (fun_of (pdenl obj)) (as_mat (u obj))) b (freeNode (mesh obj)) = Ret rn /\
    PrimFloat.ltb (PrimFloat.mul 1e-6%float (Arma.norm (fst rn)))
      (PrimFloat.mul 2%float (PrimFloat.mul 1e-6%float (Arma.norm (fst rn)))) = false.
Proof.
  intros H. unfold FiniteElemNL_new in H.
  unfold choose_functions in H. cbn [bind] in H. cbv zeta in H.
  apply bind_Ret_inv in H as (b & Hb & H).
  apply bind_Ret_inv in H as (u0 & Hu0 & H).
  apply bind_Ret_inv in H as (rn & Hrn & H).
  apply bind_Ret_inv in H as (u' & Hloop & H).
  injection H as <-. cbn [mesh u bdfun pdenl].
  apply Driver_loop_Ret_inv in Hloop as [-> Htest].
  split; [reflexivity|]. split; [exact Hu0|].
  exists b, rn. split; [exact Hb|]. split; [exact Hrn|]. exact Htest.
Qed.

Lemma construction_returns_start_vector_witness :
  exists obj,
    FiniteElemNL_new ex_fun_of cubic1D (fun _ => ex_mesh) 3 [] "FunSC" = Ret obj /\
    mesh obj = ex_mesh /\
    initial_u (ex_fun_of (bdfun obj)) (mesh obj) = Ret (u obj) /\
    u obj = [0; 0; 2]%float.
Proof.
  eexists. split; [vm_compute; reflexivity|].
  match goal with |- context [mesh ?o = _] =>
    assert (FiniteElemNL_new ex_fun_of cubic1D (fun _ => ex_mesh) 3 [] "FunSC" = Ret o) as H
      by (vm_compute; reflexivity)
  end.
  destruct (construction_returns_start_vector _ _ _ _ _ _ _ H) as (H1 & H2 & _).
  split; [exact H1|]. split; [exact H2|]. reflexivity.
Defined.

Lemma set_elem_Ret (q : uvec) :
  forall (v x : vec),
    (forall i, i ∈ q -> i < Arma.n_rows v) -> length x = length q ->
    exists v', Arma.set_elem v q x = Ret v'.
Proof.
  induction q as [|i q IH]; intros v [|y x] Hq Hlen; simpl in Hlen; try discriminate.
  - exists v. reflexivity.
  - cbn [Arma.set_elem]. rewrite set_at_Ret by (apply Hq; left). cbn [bind].
    apply IH; [|lia]. intros k Hk. unfold Arma.n_rows. rewrite length_insert.
    apply Hq. right. exact Hk.
Qed.

(** X10: the start vector exists exactly when every boundary index is below
    the number of nodes (otherwise Armadillo raises); it has one entry per
    node and is zero at every index that is not a boundary index. *)
Theorem initial_u_interior_zero (bdf : Fun) (msh : MeshMG) :
  (forall i, i ∈ bdNode msh -> 0 <= i) ->
  ((exists u0, initial_u bdf msh = Ret u0) <->
   (forall i, i ∈ bdNode msh -> i < Arma.n_rows (node msh))) /\
  (forall u0, initial_u bdf msh = Ret u0 ->
     Arma.n_rows u0 = Arma.n_rows (node msh) /\
     forall j, 0 <= j < Arma.n_rows (node msh) -> (j ∉ bdNode msh) ->
       u0 !! Z.to_nat j = Some 0%float).
Proof.
  intros Hbd. split; [split|].
  - intros [u0 H] i Hi. unfold initial_u in H. cbv zeta in H.
    apply bind_Ret_inv in H as (bn & Hbn & _).
    apply mapO_Ret_inv in Hbn.
    apply list_elem_of_lookup in Hi as [p Hp].
    destruct (Forall2_lookup_l _ _ _ _ _ Hbn Hp) as (row & _ & Hrow).
    apply at_Ret_inv, lookup_lt_Some in Hrow.
    specialize (Hbd i (list_elem_of_lookup_2 _ _ _ Hp)). unfold Arma.n_rows. lia.
  - intros Hrange. unfold initial_u. cbv zeta.
    assert (Arma.elem (node msh) (bdNode msh) = Ret (point msh <$> bdNode msh)) as ->.
    { apply mapO_Ret. intros i Hi.
      destruct (at_Ret (node msh) i) as (p & -> & Hp); [split; auto|].
      unfold point. rewrite Hp. reflexivity. }
    cbn [bind]. apply set_elem_Ret.
    + intros i Hi. unfold Arma.n_rows, Arma.zeros. rewrite length_replicate.
      specialize (Hrange i Hi). unfold Arma.n_rows in *. lia.
    + unfold evalF. rewrite length_map, length_fmap. reflexivity.
  - intros u0 H. unfold initial_u in H. cbv zeta in H.
    apply bind_Ret_inv in H as (bn & _ & H).
    assert (length (Arma.zeros (Arma.n_rows (node msh))) = length (node msh)) as Hz.
    { unfold Arma.zeros, Arma.n_rows. rewrite length_replicate. lia. }
    split.
    + unfold Arma.n_rows. f_equal. rewrite (set_elem_length _ _ _ _ H). exact Hz.
    + intros j Hj Hjb.
      rewrite (set_elem_frozen (bdNode msh) j (proj1 Hj) Hbd Hjb _ _ _ H).
      apply lookup_replicate_2. unfold Arma.n_rows in *. lia.
Qed.

Lemma initial_u_interior_zero_witness :
  (forall i, i ∈ bdNode ex_mesh -> 0 <= i) /\
  initial_u (ex_fun_of FunBoltz) ex_mesh = Ret [0; 0; 2]%float /\
  Arma.n_rows [0; 0; 2]%float = Arma.n_rows (node ex_mesh) /\
  [0; 0; 2]%float !! Z.to_nat 1 = Some 0%float.
Proof.
  assert (forall i, i ∈ bdNode ex_mesh -> 0 <= i) as Hbd.
  { intros i Hi. apply (proj1 (proj2 ex_mesh_partitions)) in Hi. lia. }
  assert (initial_u (ex_fun_of FunBoltz) ex_mesh = Ret [0; 0; 2]%float) as Hret
    by (vm_compute; reflexivity).
  destruct (proj2 (initial_u_interior_zero (ex_fun_of FunBoltz) ex_mesh Hbd) _ Hret)
    as [Hlen Hzero].
  split; [exact Hbd|]. split; [exact Hret|]. split; [exact Hlen|].
  apply Hzero; [split; reflexivity || discriminate|].
  intros Hin. apply (proj2 (proj2 (proj2 ex_mesh_partitions)) 1); [left | exact Hin].
Defined.

(** *** calcRHS on a triangle that names a missing node *)

Lemma col_triangles (m : list (list uword)) (k : nat) :
  Forall (fun t => exists v0 v1 v2, t = [v0; v1; v2]) m -> (k < 3)%nat ->
  Arma.col m (Z.of_nat k) = Ret (vertex k <$> m).
Proof.
  intros Hm Hk. unfold Arma.col. apply mapO_Ret. intros t Ht.
  rewrite Forall_forall in Hm. destruct (Hm t Ht) as (v0 & v1 & v2 & ->).
  unfold Arma.at_, vertex. rewrite Nat2Z.id.
  destruct k as [|[|[|k]]]; try reflexivity. lia.
Qed.

(** X11: when every row of the connectivity table has three indices and one
    of them is not below the number of nodes, calcRHS raises (the bounds check
    of [node.rows]); no load vector comes back. *)
Theorem calcRHS_missing_node (fun_of : FunName -> Fun) (self : FiniteElemNL)
    (t : list uword) (v : uword) :
  Forall (fun t => exists v0 v1 v2, t = [v0; v1; v2]) (elem (mesh self)) ->
  t ∈ elem (mesh self) -> v ∈ t -> Arma.n_rows (node (mesh self)) <= v ->
  calcRHS fun_of self = Throw.
Proof.
  intros Hrows Ht Hv Hbig. unfold calcRHS. cbv zeta.
  pose proof (col_triangles _ 0 Hrows ltac:(lia)) as H0.
  pose proof (col_triangles _ 1 Hrows ltac:(lia)) as H1.
  pose proof (col_triangles _ 2 Hrows ltac:(lia)) as H2.
  change (Z.of_nat 0) with 0 in H0. change (Z.of_nat 1) with 1 in H1.
  change (Z.of_nat 2) with 2 in H2.
  rewrite H0, H1, H2. cbn [bind].
  assert (exists k, (k < 3)%nat /\ v = vertex k t) as (k & Hk & Hvk).
  { rewrite Forall_forall in Hrows. destruct (Hrows t Ht) as (v0 & v1 & v2 & ->).
    apply elem_of_cons in Hv as [->|Hv]; [exists 0%nat; split; [lia|reflexivity]|].
    apply elem_of_cons in Hv as [->|Hv]; [exists 1%nat; split; [lia|reflexivity]|].
    apply list_elem_of_singleton in Hv. subst.
    exists 2%nat. split; [lia|reflexivity]. }
  assert (Arma.elem (node (mesh self)) (vertex k <$> elem (mesh self)) = Throw) as Hthrow.
  { unfold Arma.elem. apply (mapO_Throw _ v).
    - intros x. apply halts_at.
    - rewrite Hvk. apply list_elem_of_fmap. exists t. auto.
    - unfold Arma.at_. rewrite lookup_ge_None_2; [reflexivity|].
      unfold Arma.n_rows in Hbig. lia. }
  assert (forall j : nat, Arma.elem (node (mesh self)) (vertex j <$> elem (mesh self)) = Throw \/
            exists n, Arma.elem (node (mesh self)) (vertex j <$> elem (mesh self)) = Ret n)
    as Hcases by (intros j; apply halts_cases, halts_elem).
  destruct (Hcases 0%nat) as [-> | [n0 E0]]; [reflexivity|].
  destruct (Hcases 1%nat) as [E1 | [n1 E1]]; rewrite E0, E1; cbn [bind]; [reflexivity|].
  destruct (Hcases 2%nat) as [E2 | [n2 E2]]; rewrite E2; cbn [bind]; [reflexivity|].
  exfalso. destruct k as [|[|[|k]]]; [congruence..|lia].
Qed.

Lemma calcRHS_missing_node_witness :
  Forall (fun t => exists v0 v1 v2, t = [v0; v1; v2]) (elem (mesh ex_bad_self)) /\
  [0; 1; 3] ∈ elem (mesh ex_bad_self) /\ 3 ∈ [0; 1; 3] /\
  Arma.n_rows (node (mesh ex_bad_self)) <= 3 /\
  calcRHS ex_fun_of ex_bad_self = Throw.
Proof.
  assert (Forall (fun t => exists v0 v1 v2, t = [v0; v1; v2]) (elem (mesh ex_bad_self)))
    as Hrows by (constructor; [exists 0, 1, 3; reflexivity | constructor]).
  assert ([0; 1; 3] ∈ elem (mesh ex_bad_self)) as Ht by left.
  assert (3 ∈ [0; 1; 3]) as Hv by (right; right; left).
  assert (Arma.n_rows (node (mesh ex_bad_self)) <= 3) as Hbig
    by (vm_compute; discriminate).
  repeat (split; [assumption|]).
  exact (calcRHS_missing_node ex_fun_of ex_bad_self [0; 1; 3] 3 Hrows Ht Hv Hbig).
Defined.
